(** * Ab Initio graph (.mp) parsing and flow ordering

    A shallow embedding of the parsing and graph-analysis core of the
    [.mp]-to-document scripts ([newabinitio.py], [abinitiotodoc.py],
    [geminiabinitio.py]):

    - [parse_mp]: the line-by-line extractor, with the four regular
      expressions of the source run by a small backtracking matcher;
    - [describe_component], [friendly_param]: the phrase tables;
    - [topological_sort] and the successor comprehension of [build_doc].

    Python [str] values are sequences of Unicode code points and are modelled
    as [list N].  Python [int] is [Z].  A Python [dict] keeps insertion order
    and is modelled as an association list whose update keeps the position of
    an existing key.  A raised [KeyError] is an explicit outcome. *)

From Stdlib Require Import String Ascii List NArith ZArith Bool Lia Relations Permutation.
Import ListNotations.

Set Implicit Arguments.

(* ------------------------------------------------------------------ *)
(** ** Strings *)
(* ------------------------------------------------------------------ *)

Definition char := N.
Definition str := list char.

(** Source literals are written as UTF-8 text and decoded to code points. *)
Fixpoint utf8_decode (bs : list N) : str :=
  match bs with
  | [] => []
  | b :: t =>
      if (b <? 128)%N then b :: utf8_decode t
      else if (b <? 224)%N then
        match t with
        | b1 :: t1 => ((b - 192) * 64 + (b1 - 128))%N :: utf8_decode t1
        | _ => []
        end
      else if (b <? 240)%N then
        match t with
        | b1 :: b2 :: t2 =>
            ((b - 224) * 4096 + (b1 - 128) * 64 + (b2 - 128))%N :: utf8_decode t2
        | _ => []
        end
      else
        match t with
        | b1 :: b2 :: b3 :: t3 =>
            ((b - 240) * 262144 + (b1 - 128) * 4096 + (b2 - 128) * 64 + (b3 - 128))%N
              :: utf8_decode t3
        | _ => []
        end
  end.

Definition py (s : string) : str :=
  utf8_decode (map N_of_ascii (list_ascii_of_string s)).

Fixpoint str_eqb (a b : str) : bool :=
  match a, b with
  | [], [] => true
  | x :: a', y :: b' => (x =? y)%N && str_eqb a' b'
  | _, _ => false
  end.

(** [Py_UNICODE_ISSPACE]: the characters removed by [str.strip()] and matched
    by [\s] in a [str] pattern. *)
Definition is_space (c : char) : bool :=
  ((9 <=? c) && (c <=? 13) || (28 <=? c) && (c <=? 32)
   || (c =? 133) || (c =? 160) || (c =? 5760)
   || (8192 <=? c) && (c <=? 8202)
   || (c =? 8232) || (c =? 8233) || (c =? 8239) || (c =? 8287) || (c =? 12288))%N.

Fixpoint lstrip (s : str) : str :=
  match s with
  | c :: s' => if is_space c then lstrip s' else s
  | [] => []
  end.

Definition rstrip (s : str) : str := rev (lstrip (rev s)).

(** [s.strip()] *)
Definition strip (s : str) : str := rstrip (lstrip s).

(** [s.startswith(p)] *)
Fixpoint startswith (s p : str) {struct p} : bool :=
  match p, s with
  | [], _ => true
  | x :: p', y :: s' => (x =? y)%N && startswith s' p'
  | _ :: _, [] => false
  end.

(** [s.replace(a, b)] for single characters [a], [b]. *)
Definition replace (a b : char) (s : str) : str :=
  map (fun c => if (c =? a)%N then b else c) s.


(** Case mapping.  [str.lower()] and [str.title()] are built into the
    interpreter and follow its Unicode tables, which are no part of the
    program: the functions that call them take them as the parameters [lower]
    and [title] (see [describe_component] and [friendly_param]).  What is
    fixed here is their behaviour on ASCII text, where the cased characters
    are the 52 letters: [ascii_lower] and [ascii_title], which
    [ascii_case_mapping] assumes of the interpreter. *)
Definition is_upper (c : char) : bool := ((65 <=? c) && (c <=? 90))%N.
Definition is_lower (c : char) : bool := ((97 <=? c) && (c <=? 122))%N.
Definition is_cased (c : char) : bool := is_upper c || is_lower c.
Definition to_lower (c : char) : char := if is_upper c then (c + 32)%N else c.
Definition to_upper (c : char) : char := if is_lower c then (c - 32)%N else c.

(** [s.isascii()] *)
Definition isascii (s : str) : bool := forallb (fun c => (c <? 128)%N) s.

(** [s.lower()] for ASCII [s]. *)
Definition ascii_lower (s : str) : str := map to_lower s.

(** [s.title()] for ASCII [s]: a character that follows a cased character is
    lowercased, any other character is titlecased. *)
Fixpoint title_from (previous_is_cased : bool) (s : str) : str :=
  match s with
  | [] => []
  | c :: s' =>
      (if previous_is_cased then to_lower c else to_upper c)
        :: title_from (is_cased c) s'
  end.

Definition ascii_title (s : str) : str := title_from false s.

(** The interpreter's [str.lower] and [str.title] on ASCII text. *)
Definition ascii_case_mapping (lower title : str -> str) : Prop :=
  forall s, isascii s = true -> lower s = ascii_lower s /\ title s = ascii_title s.

(* ------------------------------------------------------------------ *)
(** ** Insertion-ordered dictionaries *)
(* ------------------------------------------------------------------ *)

Module Dict.
Section Dict.
Variable V : Type.

Definition t := list (str * V).

Definition empty : t := [].

(** [d[k]], [None] standing for [KeyError]; also [k in d]. *)
Fixpoint get (k : str) (d : t) : option V :=
  match d with
  | [] => None
  | (k', v) :: d' => if str_eqb k k' then Some v else get k d'
  end.

(** [d[k] = v]: an existing key keeps its position, a new key goes last. *)
Fixpoint set (k : str) (v : V) (d : t) : t :=
  match d with
  | [] => [(k, v)]
  | (k', v') :: d' =>
      if str_eqb k k' then (k, v) :: d' else (k', v') :: set k v d'
  end.

(** [d.keys()], in iteration order. *)
Definition keys (d : t) : list str := map fst d.

(** [d.get(k, default)]; with [default = []], the read [d[k]] of a
    [defaultdict(list)]. *)
Definition get_default (k : str) (default : V) (d : t) : V :=
  match get k d with Some v => v | None => default end.
End Dict.
End Dict.

(* ------------------------------------------------------------------ *)
(** ** The regular expressions of the extractor *)
(* ------------------------------------------------------------------ *)

(** Character classes: [.], [\s] and a literal character. *)
Inductive cls := Any | Ws | Ch (c : char).

Definition cls_in (k : cls) (c : char) : bool :=
  match k with
  | Any => negb (c =? 10)%N
  | Ws => is_space c
  | Ch x => (c =? x)%N
  end.

(** The pattern items that occur in the source: literal text, [k+], [k?],
    the capturing lazy groups [(k+?)] and [(k*?)], and [$]. *)
Inductive item :=
| Lit (l : str)
| Plus (k : cls)
| Opt (k : cls)
| CapPlusLazy (k : cls)
| CapStarLazy (k : cls)
| Eos.

Definition regex := list item.

Fixpoint strip_prefix (p s : str) {struct p} : option str :=
  match p, s with
  | [], _ => Some s
  | x :: p', y :: s' => if (x =? y)%N then strip_prefix p' s' else None
  | _ :: _, [] => None
  end.

Definition or_else (A : Type) (a b : option A) : option A :=
  match a with Some _ => a | None => b end.

(** Greedy repetition: the longest run is tried first, then shorter ones. *)
Fixpoint greedy (p : char -> bool) (k : str -> option (list str)) (s : str)
  : option (list str) :=
  match s with
  | c :: s' => if p c then or_else (greedy p k s') (k s) else k s
  | [] => k s
  end.

(** Lazy capturing repetition: the shortest run is tried first; [acc] is the
    text captured so far. *)
Fixpoint lazy_cap (p : char -> bool) (k : str -> option (list str))
         (acc : str) (s : str) : option (list str) :=
  match k s with
  | Some g => Some (acc :: g)
  | None =>
      match s with
      | c :: s' => if p c then lazy_cap p k (acc ++ [c]) s' else None
      | [] => None
      end
  end.

(** [$] without [re.MULTILINE]: the end of the text, or just before a final
    line feed. *)
Definition at_end (s : str) : bool :=
  match s with
  | [] => true
  | [c] => (c =? 10)%N
  | _ => false
  end.

(** [re.match(r, s)]: anchored at the start, the first success in
    backtracking order; the result is [m.groups()]. *)
Fixpoint re_match (r : regex) (s : str) : option (list str) :=
  match r with
  | [] => Some []
  | Lit l :: r' =>
      match strip_prefix l s with
      | Some s' => re_match r' s'
      | None => None
      end
  | Plus k :: r' =>
      match s with
      | c :: s' => if cls_in k c then greedy (cls_in k) (re_match r') s' else None
      | [] => None
      end
  | Opt k :: r' =>
      match s with
      | c :: s' =>
          if cls_in k c then or_else (re_match r' s') (re_match r' s)
          else re_match r' s
      | [] => re_match r' s
      end
  | CapPlusLazy k :: r' =>
      match s with
      | c :: s' => if cls_in k c then lazy_cap (cls_in k) (re_match r') [c] s' else None
      | [] => None
      end
  | CapStarLazy k :: r' => lazy_cap (cls_in k) (re_match r') [] s
  | Eos :: r' => if at_end s then re_match r' s else None
  end.

Definition quote : str := [34%N].

(** [r'graph\s+"(.+?)"'] *)
Definition RE_GRAPH : regex :=
  [Lit (py "graph"); Plus Ws; Lit quote; CapPlusLazy Any; Lit quote].

(** [r'component\s+"(.+?)"\s+of\s+"(.+?)"'] *)
Definition RE_COMPONENT : regex :=
  [Lit (py "component"); Plus Ws; Lit quote; CapPlusLazy Any; Lit quote;
   Plus Ws; Lit (py "of"); Plus Ws; Lit quote; CapPlusLazy Any; Lit quote].

(** [r'parameter\s+"(.+?)"\s+=\s+"?(.*?)"?;?$'] *)
Definition RE_PARAMETER : regex :=
  [Lit (py "parameter"); Plus Ws; Lit quote; CapPlusLazy Any; Lit quote;
   Plus Ws; Lit (py "="); Plus Ws; Opt (Ch 34%N); CapStarLazy Any;
   Opt (Ch 34%N); Opt (Ch 59%N); Eos].

(** [r'connect\s+"(.+?)"\s+to\s+"(.+?)"'] *)
Definition RE_CONNECT : regex :=
  [Lit (py "connect"); Plus Ws; Lit quote; CapPlusLazy Any; Lit quote;
   Plus Ws; Lit (py "to"); Plus Ws; Lit quote; CapPlusLazy Any; Lit quote].

(** [m.group(i + 1)] *)
Definition group (i : nat) (m : list str) : str := nth i m [].

(* ------------------------------------------------------------------ *)
(** ** The extractor: [parse_mp] / [parse_mp_file] *)
(* ------------------------------------------------------------------ *)

Record Component := mkComponent {
  type : str;
  parameters : Dict.t str
}.

Record Graph := mkGraph {
  graph_name : str;
  components : Dict.t Component;
  connections : list (str * str)
}.

(** The graph under construction and the [current] component name
    ([None] before the first declaration). *)
Definition parse_state := (Graph * option str)%type.

Definition initial_state : parse_state :=
  (mkGraph [] (Dict.empty _) [], None).

(** Truth value of [current] in [... and current]. *)
Definition truthy (current : option str) : bool :=
  match current with
  | Some (_ :: _) => true
  | _ => false
  end.

(** The body of the [for raw in fh] loop.  [None] is a raised [KeyError]
    (from [graph["components"][current]]). *)
Definition parse_line (st : parse_state) (raw : str) : option parse_state :=
  let '(graph, current) := st in
  let line := strip raw in
  if startswith line (py "graph") then
    match re_match RE_GRAPH line with
    | Some m =>
        Some (mkGraph (group 0 m) (components graph) (connections graph), current)
    | None => Some st
    end
  else if startswith line (py "component") then
    match re_match RE_COMPONENT line with
    | Some m =>
        let name := group 0 m in
        let ctype := group 1 m in
        Some (mkGraph (graph_name graph)
                      (Dict.set name (mkComponent ctype (Dict.empty _)) (components graph))
                      (connections graph),
              Some name)
    | None => Some st
    end
  else if startswith line (py "parameter") && truthy current then
    match re_match RE_PARAMETER line with
    | Some m =>
        let pname := group 0 m in
        let pval := group 1 m in
        match current with
        | None => None
        | Some cur =>
            match Dict.get cur (components graph) with
            | None => None
            | Some comp =>
                Some (mkGraph (graph_name graph)
                              (Dict.set cur
                                        (mkComponent (type comp)
                                                     (Dict.set pname pval (parameters comp)))
                                        (components graph))
                              (connections graph),
                      current)
            end
        end
    | None => Some st
    end
  else if startswith line (py "connect") then
    match re_match RE_CONNECT line with
    | Some m =>
        Some (mkGraph (graph_name graph) (components graph)
                      (connections graph ++ [(group 0 m, group 1 m)]),
              current)
    | None => Some st
    end
  else Some st.

Fixpoint parse_lines (st : parse_state) (lines : list str) : option parse_state :=
  match lines with
  | [] => Some st
  | raw :: rest =>
      match parse_line st raw with
      | Some st' => parse_lines st' rest
      | None => None
      end
  end.

(** [parse_mp] on the lines of the file. *)
Definition parse_mp (lines : list str) : option Graph :=
  option_map fst (parse_lines initial_state lines).

(* ------------------------------------------------------------------ *)
(** ** The phrase tables: [describe_component], [friendly_param] *)
(* ------------------------------------------------------------------ *)


Definition PARAM_FRIENDLY : Dict.t str :=
  [ (py "filename", py "File path");
    (py "record_format", py "Record layout");
    (py "delimiter", py "Field delimiter");
    (py "transform", py "Transformation logic");
    (py "key", py "Key field(s)");
    (py "keys", py "Key field(s)");
    (py "join_type", py "Join type");
    (py "reject_limit", py "Maximum % of bad records allowed") ].


Section Catalog.
(** [Path(p).name] of [pathlib], whose result depends on the platform's
    path flavour; it is only reached for the input and output types. *)
Variable path_name : str -> str.
(** [str.lower] and [str.title] of the interpreter. *)
Variable lower : str -> str.
Variable title : str -> str.


Definition friendly_param (pname : str) : str :=
  Dict.get_default (lower pname) (title (replace 95%N 32%N pname)) PARAM_FRIENDLY.
End Catalog.


(* ------------------------------------------------------------------ *)
(** ** The flow analyzer: [topological_sort] and the successor lookup *)
(* ------------------------------------------------------------------ *)

(** What a call does: it returns, it raises [KeyError], or the model's loop
    bound was too small. *)
Inductive outcome (A : Type) :=
| Returns (a : A)
| KeyError
| OutOfFuel.
Arguments KeyError {A}.
Arguments OutOfFuel {A}.

(** [{n: 0 for n in nodes}] *)
Definition indeg_init (nodes : list str) : Dict.t Z :=
  fold_left (fun d n => Dict.set n 0%Z d) nodes (Dict.empty Z).

(** [for src, dst in edges: out_edges[src].append(dst); indeg[dst] += 1].
    [out_edges] is a [defaultdict(list)]; [indeg] is a plain [dict], so
    [indeg[dst]] raises for a missing key. *)
Fixpoint count_edges (edges : list (str * str))
         (out_edges : Dict.t (list str)) (indeg : Dict.t Z)
  : option (Dict.t (list str) * Dict.t Z) :=
  match edges with
  | [] => Some (out_edges, indeg)
  | (src, dst) :: rest =>
      let out_edges' :=
        Dict.set src (Dict.get_default src [] out_edges ++ [dst]) out_edges in
      match Dict.get dst indeg with
      | None => None
      | Some d => count_edges rest out_edges' (Dict.set dst (d + 1)%Z indeg)
      end
  end.

(** [[n for n in nodes if indeg[n] == 0]] *)
Fixpoint zero_indegree (nodes : list str) (indeg : Dict.t Z) : option (list str) :=
  match nodes with
  | [] => Some []
  | n :: rest =>
      match Dict.get n indeg with
      | None => None
      | Some d =>
          match zero_indegree rest indeg with
          | None => None
          | Some q => Some (if (d =? 0)%Z then n :: q else q)
          end
      end
  end.

(** [for m in out_edges[n]: indeg[m] -= 1; if indeg[m] == 0: q.append(m)] *)
Fixpoint release (succs : list str) (indeg : Dict.t Z) (q : list str)
  : option (Dict.t Z * list str) :=
  match succs with
  | [] => Some (indeg, q)
  | m :: rest =>
      match Dict.get m indeg with
      | None => None
      | Some d =>
          let d' := (d - 1)%Z in
          release rest (Dict.set m d' indeg) (if (d' =? 0)%Z then q ++ [m] else q)
      end
  end.

(** [while q: n = q.popleft(); order.append(n); ...].  The loop is bounded by
    [fuel] iterations; [topological_sort] gives it one per node, which is
    enough for the keys of a component map (lemma [drain_spec]). *)
Fixpoint drain (fuel : nat) (out_edges : Dict.t (list str)) (indeg : Dict.t Z)
         (q order : list str) : outcome (list str) :=
  match q with
  | [] => Returns order
  | n :: q' =>
      match fuel with
      | O => OutOfFuel
      | S fuel' =>
          match release (Dict.get_default n [] out_edges) indeg q' with
          | None => KeyError
          | Some (indeg', q'') => drain fuel' out_edges indeg' q'' (order ++ [n])
          end
      end
  end.

Definition topological_sort (nodes : list str) (edges : list (str * str))
  : outcome (list str) :=
  match count_edges edges (Dict.empty _) (indeg_init nodes) with
  | None => KeyError
  | Some (out_edges, indeg) =>
      match zero_indegree nodes indeg with
      | None => KeyError
      | Some q =>
          match drain (length nodes) out_edges indeg q [] with
          | Returns order =>
              Returns (if (length order =? length nodes)%nat then order else nodes)
          | KeyError => KeyError
          | OutOfFuel => OutOfFuel
          end
      end
  end.

(** [topological_sort(graph["components"].keys(), graph["connections"])] *)
Definition ordered (graph : Graph) : outcome (list str) :=
  topological_sort (Dict.keys (components graph)) (connections graph).

(** [[dst for src, dst in graph["connections"] if src == comp]] *)
Fixpoint outs (connections : list (str * str)) (comp : str) : list str :=
  match connections with
  | [] => []
  | (src, dst) :: rest =>
      if str_eqb src comp then dst :: outs rest comp else outs rest comp
  end.

(* ------------------------------------------------------------------ *)
(** ** Statement texts and the properties the theorems speak about *)
(* ------------------------------------------------------------------ *)

Definition quoted (s : str) : str := quote ++ s ++ quote.

(** [graph "<name>"] *)
Definition graph_stmt (name : str) : str := py "graph " ++ quoted name.

(** [component "<name>" of "<type>"] *)
Definition component_stmt (name ctype : str) : str :=
  py "component " ++ quoted name ++ py " of " ++ quoted ctype.

(** [connect "<src>" to "<dst>"] *)
Definition connect_stmt (src dst : str) : str :=
  py "connect " ++ quoted src ++ py " to " ++ quoted dst.

(** [parameter "<name>" = <value>], the value in quotes or bare, with or
    without the final semicolon. *)
Definition parameter_stmt (value_quoted semicolon : bool) (name value : str) : str :=
  py "parameter " ++ quoted name ++ py " = "
     ++ (if value_quoted then quoted value else value)
     ++ (if semicolon then py ";" else []).

(** A character that is neither a double quote nor a line feed. *)
Definition plain_char (c : char) : Prop := c <> 34%N /\ c <> 10%N.

(** A non-empty text without double quotes and line feeds. *)
Definition plain (s : str) : Prop := s <> [] /\ Forall plain_char s.

(** A bare parameter value: non-empty, without double quotes, semicolons and
    line feeds, and with no white space at either end. *)
Definition bare_value (v : str) : Prop :=
  plain v /\ Forall (fun c => c <> 59%N) v
  /\ (forall c, hd_error v = Some c -> is_space c = false)
  /\ (forall c, hd_error (rev v) = Some c -> is_space c = false).

(** The line has the shape [graph], white space, and a quoted text; the
    quoted text is [name]: one character, then everything up to the next
    double quote. *)
Definition graph_decl (raw name : str) : Prop :=
  exists ws c t rest,
    strip raw = py "graph" ++ ws ++ quote ++ (c :: t) ++ quote ++ rest
    /\ ws <> [] /\ Forall (fun x => is_space x = true) ws
    /\ name = c :: t /\ c <> 10%N /\ Forall plain_char t.

(** The line is recognised as the declaration of component [name] with type
    [ctype]. *)
Definition component_decl (raw name ctype : str) : Prop :=
  re_match RE_COMPONENT (strip raw) = Some [name; ctype].

(** The line is recognised as the assignment of [value] to parameter [name]. *)
Definition parameter_decl (raw name value : str) : Prop :=
  re_match RE_PARAMETER (strip raw) = Some [name; value].

Definition is_none (A : Type) (o : option A) : bool :=
  match o with None => true | Some _ => false end.

(** The line matches none of the four statement patterns. *)
Definition matches_none (raw : str) : bool :=
  let line := strip raw in
  is_none (re_match RE_GRAPH line) && is_none (re_match RE_COMPONENT line)
  && is_none (re_match RE_PARAMETER line) && is_none (re_match RE_CONNECT line).

(** The entry of [name] in the component map of a state. *)
Definition component_of (st : parse_state) (name : str) : option Component :=
  Dict.get name (components (fst st)).

(** An edge of the subgraph induced on the declared components. *)
Definition declared_edge (graph : Graph) (s d : str) : Prop :=
  In (s, d) (connections graph)
  /\ In s (Dict.keys (components graph)) /\ In d (Dict.keys (components graph)).

Definition acyclic (graph : Graph) : Prop :=
  forall x, ~ clos_trans str (declared_edge graph) x x.

Definition cyclic (graph : Graph) : Prop :=
  exists x, clos_trans str (declared_edge graph) x x.

(** [a] occurs before [b] in [l]. *)
Definition precedes (a b : str) (l : list str) : Prop :=
  exists i j, i < j /\ nth_error l i = Some a /\ nth_error l j = Some b.

(** Every edge between declared components goes forward in [l]. *)
Definition topological (graph : Graph) (l : list str) : Prop :=
  forall s d, declared_edge graph s d -> precedes s d l.

(** A component map as a [dict] holds it: no key twice. *)
Definition well_formed (graph : Graph) : Prop :=
  NoDup (Dict.keys (components graph)).

(** Every edge target is a declared component. *)
Definition targets_declared (graph : Graph) : Prop :=
  forall s d, In (s, d) (connections graph) -> In d (Dict.keys (components graph)).

(** Every edge source is a declared component. *)
Definition sources_declared (graph : Graph) : Prop :=
  forall s d, In (s, d) (connections graph) -> In s (Dict.keys (components graph)).

(** The successor list as the specification words it: the targets of the
    edges whose source is [n], in edge order. *)
Definition targets_of (edges : list (str * str)) (n : str) : list str :=
  map snd (filter (fun e => str_eqb (fst e) n) edges).


(** The cursor names a component that is in the map. *)
Definition cursor_ok (st : parse_state) : Prop :=
  forall cur, snd st = Some cur -> Dict.get cur (components (fst st)) <> None.

(** [p] holds of the character. *)
Definition holds (p : char -> bool) (c : char) : Prop := p c = true.

(** The next character, if any, is outside [p]. *)
Definition stops (p : char -> bool) (s : str) : Prop :=
  forall c, hd_error s = Some c -> p c = false.

(** The number of capturing groups of a pattern. *)
Fixpoint groups_of (r : regex) : nat :=
  match r with
  | [] => 0
  | CapPlusLazy _ :: r' | CapStarLazy _ :: r' => S (groups_of r')
  | _ :: r' => groups_of r'
  end.

(** Two states with the same cursor and the same entry for [name]. *)
Definition same_view (name : str) (st1 st2 : parse_state) : Prop :=
  snd st1 = snd st2 /\ component_of st1 name = component_of st2 name.

(** Every parameter of [comp] was assigned by one of [lines]. *)
Definition assigned_by (lines : list str) (comp : Component) : Prop :=
  forall p v, Dict.get p (parameters comp) = Some v ->
              exists raw, In raw lines /\ parameter_decl raw p v.

(** The state with parameter [pname] of component [cur] set to [pval]. *)
Definition with_parameter (graph : Graph) (cur : str) (comp : Component)
           (pname pval : str) : parse_state :=
  (mkGraph (graph_name graph)
           (Dict.set cur
                     (mkComponent (type comp) (Dict.set pname pval (parameters comp)))
                     (components graph))
           (connections graph),
   Some cur).


(** [x in l] *)
Definition mem (x : str) (l : list str) : bool := existsb (str_eqb x) l.

(** The number of edges that enter [m]. *)
Definition indegree (edges : list (str * str)) (m : str) : nat :=
  length (filter (fun e => str_eqb (snd e) m) edges).

(** The number of edges that enter [m] from a node that is not in [order]. *)
Definition pending (edges : list (str * str)) (order : list str) (m : str) : nat :=
  length (filter (fun e => str_eqb (snd e) m && negb (mem (fst e) order)) edges).

(** The number of occurrences of [m] in [l]. *)
Definition occurrences (l : list str) (m : str) : nat :=
  length (filter (str_eqb m) l).

(** The state of the [while q] loop between two iterations: the nodes that
    were enqueued so far are distinct declared nodes; [indeg] counts, for
    each declared node, the entering edges whose source was not popped yet;
    a declared node was enqueued exactly when that count is zero; and every
    edge into a popped node comes from a node popped earlier. *)
Record loop_invariant (nodes : list str) (edges : list (str * str))
       (indeg : Dict.t Z) (q order : list str) : Prop := {
  inv_nodup : NoDup (order ++ q);
  inv_incl : incl (order ++ q) nodes;
  inv_indeg : forall m, In m nodes ->
                        Dict.get m indeg = Some (Z.of_nat (pending edges order m));
  inv_zero : forall m, In m nodes ->
                       (In m (order ++ q) <-> pending edges order m = 0);
  inv_order : forall s d, In (s, d) edges -> In d order -> precedes s d order
}.

(** Consecutive elements of [l] are related by [E]. *)
Fixpoint chain (E : str -> str -> Prop) (l : list str) : Prop :=
  match l with
  | a :: (b :: _) as t => E a b /\ chain E t
  | _ => True
  end.

(* ------------------------------------------------------------------ *)
(** ** Inputs used in the examples *)
(* ------------------------------------------------------------------ *)

(** The round-trip scenario. *)
Definition sample_lines : list str :=
  [graph_stmt (py "Sample");
   component_stmt (py "Read_Customers") (py "input_table");
   py "  " ++ parameter_stmt true true (py "filename") (py "customers.dat");
   component_stmt (py "Filter_Active") (py "filter");
   connect_stmt (py "Read_Customers") (py "Filter_Active")].

Definition sample_graph : Graph :=
  mkGraph (py "Sample")
    [(py "Read_Customers",
      mkComponent (py "input_table") [(py "filename", py "customers.dat")]);
     (py "Filter_Active", mkComponent (py "filter") [])]
    [(py "Read_Customers", py "Filter_Active")].

(** One component and an edge to a name that is never declared. *)
Definition dangling_target_lines : list str :=
  [component_stmt (py "A") (py "filter");
   connect_stmt (py "A") (py "Ghost")].

Definition dangling_target_graph : Graph :=
  mkGraph [] [(py "A", mkComponent (py "filter") [])] [(py "A", py "Ghost")].

(** [B] is declared before [A], [A] feeds [B], and an undeclared name feeds
    [A]. *)
Definition dangling_source_lines : list str :=
  [component_stmt (py "B") (py "output_table");
   component_stmt (py "A") (py "input_table");
   connect_stmt (py "A") (py "B");
   connect_stmt (py "Ghost") (py "A")].

Definition dangling_source_graph : Graph :=
  mkGraph []
    [(py "B", mkComponent (py "output_table") []);
     (py "A", mkComponent (py "input_table") [])]
    [(py "A", py "B"); (py "Ghost", py "A")].

(** A two-node cycle and an edge to a name that is never declared. *)
Definition cycle_dangling_lines : list str :=
  [component_stmt (py "A") (py "filter");
   component_stmt (py "B") (py "filter");
   connect_stmt (py "A") (py "B");
   connect_stmt (py "B") (py "A");
   connect_stmt (py "A") (py "Ghost")].

Definition cycle_dangling_graph : Graph :=
  mkGraph []
    [(py "A", mkComponent (py "filter") []); (py "B", mkComponent (py "filter") [])]
    [(py "A", py "B"); (py "B", py "A"); (py "A", py "Ghost")].

(** The cycle scenario. *)
Definition cycle_graph : Graph :=
  mkGraph []
    [(py "A", mkComponent (py "filter") []); (py "B", mkComponent (py "filter") [])]
    [(py "A", py "B"); (py "B", py "A")].

(** A [component] line cut short: the keyword and the name, but no type. *)
Definition malformed_component : str :=
  py "component " ++ quoted (py "Broken") ++ py " of".

(** The dangling-edge scenario: the sample with an edge from [Ghost]. *)
Definition ghost_lines : list str :=
  sample_lines ++ [connect_stmt (py "Ghost") (py "Read_Customers")].

(** A state in which component [A] is current. *)
Definition state_in_A : parse_state :=
  (mkGraph [] [(py "A", mkComponent (py "X") [])] [], Some (py "A")).

(** Boolean versions of [plain] and [bare_value]. *)
Definition plain_charb (c : char) : bool := negb (c =? 34)%N && negb (c =? 10)%N.

Definition plainb (s : str) : bool :=
  match s with
  | [] => false
  | _ => forallb plain_charb s
  end.

Definition bare_valueb (v : str) : bool :=
  plainb v && forallb (fun c => negb (c =? 59)%N) v
  && match v with c :: _ => negb (is_space c) | [] => true end
  && match rev v with c :: _ => negb (is_space c) | [] => true end.

(** The spelling of the claimed parameter effect: the four statements set
    parameter [name] of component [A] to [value]. *)
Definition four_spellings_assign (name value : str) : Prop :=
  forall value_quoted semicolon : bool,
    parse_line state_in_A (parameter_stmt value_quoted semicolon name value)
    = Some (with_parameter (fst state_in_A) (py "A") (mkComponent (py "X") [])
                           name value).

(** A text without double quotes and semicolons. *)
Definition no_quote_no_semicolon (v : str) : Prop :=
  Forall (fun c => c <> 34%N /\ c <> 59%N) v.
(* ================================================================== *)
(** * Properties *)
(* ================================================================== *)

(* ------------------------------------------------------------------ *)
(** ** Strings and dictionaries *)
(* ------------------------------------------------------------------ *)

Lemma str_eqb_eq (a b : str) : str_eqb a b = true <-> a = b.
Proof.
  revert b; induction a as [|x a IH]; intros [|y b]; simpl; split;
    try congruence; try reflexivity.
  - intros H. apply andb_true_iff in H as [Hx Hab].
    apply N.eqb_eq in Hx. apply IH in Hab. congruence.
  - intros H. injection H as -> ->. rewrite N.eqb_refl. simpl. now apply IH.
Qed.

Lemma str_eqb_refl (a : str) : str_eqb a a = true.
Proof. now apply str_eqb_eq. Qed.

Lemma str_eqb_neq (a b : str) : str_eqb a b = false <-> a <> b.
Proof.
  split.
  - intros H E. apply str_eqb_eq in E. congruence.
  - intros H. destruct (str_eqb a b) eqn:E; [|reflexivity].
    apply str_eqb_eq in E. contradiction.
Qed.

Lemma str_eq_dec (a b : str) : {a = b} + {a <> b}.
Proof.
  destruct (str_eqb a b) eqn:E.
  - left. now apply str_eqb_eq.
  - right. now apply str_eqb_neq.
Defined.

Lemma strip_prefix_app (p s : str) : strip_prefix p (p ++ s) = Some s.
Proof. induction p as [|x p IH]; simpl; [reflexivity|]. now rewrite N.eqb_refl. Qed.

Lemma strip_prefix_inv (p s s' : str) : strip_prefix p s = Some s' -> s = p ++ s'.
Proof.
  revert s; induction p as [|x p IH]; intros s; simpl.
  - congruence.
  - destruct s as [|y s]; [discriminate|].
    destruct (N.eqb_spec x y); [|discriminate].
    intros H. apply IH in H. subst. reflexivity.
Qed.

Lemma startswith_app (p s : str) : startswith (p ++ s) p = true.
Proof. induction p as [|x p IH]; simpl; [reflexivity|]. now rewrite N.eqb_refl. Qed.

Lemma startswith_inv (p s : str) : startswith s p = true -> exists s', s = p ++ s'.
Proof.
  revert s; induction p as [|x p IH]; intros s; simpl.
  - intros _. now exists s.
  - destruct s as [|y s]; [discriminate|].
    intros H. apply andb_true_iff in H as [Hx Hs]. apply N.eqb_eq in Hx.
    destruct (IH _ Hs) as [s' ->]. exists s'. now subst.
Qed.

Module DictFacts.
Section DictFacts.
Variable V : Type.
Implicit Types (d : Dict.t V) (k : str) (v : V).

Lemma get_set_same d k v : Dict.get k (Dict.set k v d) = Some v.
Proof.
  induction d as [|[k' v'] d IH]; simpl.
  - now rewrite str_eqb_refl.
  - destruct (str_eqb k k') eqn:E; simpl; rewrite ?E, ?str_eqb_refl; auto.
Qed.

Lemma get_set_other d k k' v : k <> k' -> Dict.get k' (Dict.set k v d) = Dict.get k' d.
Proof.
  intros Hne. induction d as [|[k0 v0] d IH]; simpl.
  - assert (str_eqb k' k = false) as -> by (apply str_eqb_neq; congruence).
    reflexivity.
  - destruct (str_eqb k k0) eqn:E; simpl.
    + apply str_eqb_eq in E. subst k0.
      assert (str_eqb k' k = false) as -> by (apply str_eqb_neq; congruence).
      reflexivity.
    + now rewrite IH.
Qed.

Lemma get_in_keys d k : Dict.get k d <> None <-> In k (Dict.keys d).
Proof.
  induction d as [|[k0 v0] d IH]; simpl.
  - tauto.
  - destruct (str_eqb k k0) eqn:E.
    + apply str_eqb_eq in E. subst. split; [auto | congruence].
    + apply str_eqb_neq in E. rewrite IH.
      split; [auto | intros [H|H]; [congruence | assumption]].
Qed.

Lemma get_none_keys d k : Dict.get k d = None <-> ~ In k (Dict.keys d).
Proof.
  rewrite <- get_in_keys. destruct (Dict.get k d); split; intros H;
    try congruence; try (exfalso; apply H; congruence);
    try (intros X; apply X; reflexivity).
Qed.

Lemma keys_set_present d k v : In k (Dict.keys d) -> Dict.keys (Dict.set k v d) = Dict.keys d.
Proof.
  induction d as [|[k0 v0] d IH]; simpl; [tauto|].
  intros H. destruct (str_eqb k k0) eqn:E; simpl.
  - apply str_eqb_eq in E. now subst.
  - apply str_eqb_neq in E. f_equal. apply IH. destruct H; congruence.
Qed.

Lemma keys_set_absent d k v : ~ In k (Dict.keys d) -> Dict.keys (Dict.set k v d) = Dict.keys d ++ [k].
Proof.
  induction d as [|[k0 v0] d IH]; simpl; [reflexivity|].
  intros H. destruct (str_eqb k k0) eqn:E; simpl.
  - apply str_eqb_eq in E. subst. tauto.
  - f_equal. apply IH. tauto.
Qed.

Lemma in_keys_set d k k' v : In k' (Dict.keys (Dict.set k v d)) <-> k' = k \/ In k' (Dict.keys d).
Proof.
  destruct (in_dec str_eq_dec k (Dict.keys d)) as [Hin|Hout].
  - rewrite keys_set_present by assumption. split; [auto | intros [->|H]; auto].
  - rewrite keys_set_absent by assumption. rewrite in_app_iff. simpl.
    split; [intros [H|[H|[]]]; auto | intros [H|H]; auto].
Qed.

Lemma NoDup_keys_set d k v : NoDup (Dict.keys d) -> NoDup (Dict.keys (Dict.set k v d)).
Proof.
  intros Hnd. destruct (in_dec str_eq_dec k (Dict.keys d)) as [Hin|Hout].
  - now rewrite keys_set_present.
  - rewrite keys_set_absent by assumption.
    apply NoDup_app; [assumption| repeat constructor; simpl; tauto |].
    intros x Hx [<-|[]]. contradiction.
Qed.
End DictFacts.
End DictFacts.

(* ------------------------------------------------------------------ *)
(** ** The extractor never raises *)
(* ------------------------------------------------------------------ *)

Lemma truthy_some (current : option str) :
  truthy current = true -> exists cur, current = Some cur.
Proof. destruct current as [[|c s]|]; simpl; try discriminate. eauto. Qed.

Lemma cursor_ok_initial : cursor_ok initial_state.
Proof. intros cur H. discriminate H. Qed.

(** One line: the step returns, and keeps the cursor inside the map. *)
Lemma parse_line_total (st : parse_state) (raw : str) :
  cursor_ok st -> exists st', parse_line st raw = Some st' /\ cursor_ok st'.
Proof.
  destruct st as [graph current]. intros Hok. unfold parse_line.
  destruct (startswith (strip raw) (py "graph")).
  { destruct (re_match RE_GRAPH (strip raw)); eexists; split; eauto. }
  destruct (startswith (strip raw) (py "component")).
  { destruct (re_match RE_COMPONENT (strip raw)); eexists; split; eauto.
    intros cur Hcur. simpl in *. injection Hcur as <-.
    rewrite DictFacts.get_set_same. discriminate. }
  destruct (startswith (strip raw) (py "parameter") && truthy current) eqn:Hp.
  { apply andb_true_iff in Hp as [_ Ht]. apply truthy_some in Ht as [cur ->].
    destruct (re_match RE_PARAMETER (strip raw)); [|eexists; split; eauto].
    specialize (Hok cur eq_refl). simpl in Hok.
    destruct (Dict.get cur (components graph)) as [comp|]; [|congruence].
    eexists; split; [reflexivity|].
    intros c Hc. simpl in *. injection Hc as <-.
    rewrite DictFacts.get_set_same. discriminate. }
  destruct (startswith (strip raw) (py "connect")).
  { destruct (re_match RE_CONNECT (strip raw)); eexists; split; eauto. }
  eexists; split; eauto.
Qed.

Lemma parse_lines_total (lines : list str) (st : parse_state) :
  cursor_ok st -> exists st', parse_lines st lines = Some st' /\ cursor_ok st'.
Proof.
  revert st; induction lines as [|raw rest IH]; intros st Hok; simpl.
  - eauto.
  - destruct (parse_line_total raw Hok) as (st1 & -> & Hok1). now apply IH.
Qed.

Lemma parse_lines_cons (st : parse_state) (raw : str) (rest : list str) :
  parse_lines st (raw :: rest) =
  match parse_line st raw with
  | Some st' => parse_lines st' rest
  | None => None
  end.
Proof. reflexivity. Qed.

Lemma parse_lines_app (a b : list str) (st : parse_state) :
  parse_lines st (a ++ b) =
  match parse_lines st a with
  | Some st' => parse_lines st' b
  | None => None
  end.
Proof.
  revert st; induction a as [|raw a IH]; intros st; simpl; [reflexivity|].
  destruct (parse_line st raw); [apply IH | reflexivity].
Qed.

Lemma matches_none_inv (raw : str) :
  matches_none raw = true ->
  re_match RE_GRAPH (strip raw) = None /\ re_match RE_COMPONENT (strip raw) = None
  /\ re_match RE_PARAMETER (strip raw) = None /\ re_match RE_CONNECT (strip raw) = None.
Proof.
  unfold matches_none. cbv zeta. intros H.
  repeat (apply andb_true_iff in H as [H ?]).
  repeat match goal with
         | X : is_none ?o = true |- _ =>
             destruct o eqn:?; [discriminate X | clear X]
         end.
  auto.
Qed.

(** A line that matches no pattern is a no-op of the loop body. *)
Lemma parse_line_unmatched (st : parse_state) (raw : str) :
  matches_none raw = true -> parse_line st raw = Some st.
Proof.
  intros H. apply matches_none_inv in H as (Hg & Hc & Hp & Hcn).
  destruct st as [graph current]. unfold parse_line.
  rewrite Hg, Hc, Hp, Hcn.
  destruct (startswith (strip raw) (py "graph")); [reflexivity|].
  destruct (startswith (strip raw) (py "component")); [reflexivity|].
  destruct (startswith (strip raw) (py "parameter") && truthy current); [reflexivity|].
  destruct (startswith (strip raw) (py "connect")); reflexivity.
Qed.

(* ------------------------------------------------------------------ *)
(** ** The matcher, item by item *)
(* ------------------------------------------------------------------ *)

Lemma re_match_lit (l : str) (r : regex) (s : str) :
  re_match (Lit l :: r) (l ++ s) = re_match r s.
Proof. simpl. now rewrite strip_prefix_app. Qed.

Lemma re_match_lit_inv (l : str) (r : regex) (s : str) (g : list str) :
  re_match (Lit l :: r) s = Some g -> exists s', s = l ++ s' /\ re_match r s' = Some g.
Proof.
  simpl. destruct (strip_prefix l s) as [s'|] eqn:E; [|discriminate].
  apply strip_prefix_inv in E. eauto.
Qed.

Lemma re_match_lit_starts (l : str) (r : regex) (s : str) (g : list str) :
  re_match (Lit l :: r) s = Some g -> startswith s l = true.
Proof.
  intros H. apply re_match_lit_inv in H as (s' & -> & _). apply startswith_app.
Qed.

Lemma greedy_stops (p : char -> bool) k (s : str) : stops p s -> greedy p k s = k s.
Proof.
  destruct s as [|c s]; simpl; [reflexivity|]. intros H.
  now rewrite (H c eq_refl).
Qed.

Lemma greedy_run (p : char -> bool) k (w s : str) (g : list str) :
  Forall (holds p) w -> stops p s -> k s = Some g -> greedy p k (w ++ s) = Some g.
Proof.
  intros Hw Hs Hk. induction Hw as [|c w Hc _ IH]; simpl.
  - now rewrite greedy_stops.
  - rewrite Hc, IH. reflexivity.
Qed.

Lemma greedy_inv (p : char -> bool) k (s : str) (g : list str) :
  greedy p k s = Some g ->
  exists w s', s = w ++ s' /\ Forall (holds p) w /\ k s' = Some g.
Proof.
  induction s as [|c s IH]; simpl.
  - intros H. exists [], []. auto.
  - destruct (p c) eqn:Hc.
    + destruct (greedy p k s) as [g'|] eqn:E; simpl.
      * intros [= <-]. destruct (IH eq_refl) as (w & s' & -> & Hw & Hk).
        exists (c :: w), s'. repeat split; auto.
      * intros H. exists [], (c :: s). auto.
    + intros H. exists [], (c :: s). auto.
Qed.

Lemma re_match_plus (k : cls) (r : regex) (w s : str) (g : list str) :
  w <> [] -> Forall (holds (cls_in k)) w -> stops (cls_in k) s ->
  re_match r s = Some g -> re_match (Plus k :: r) (w ++ s) = Some g.
Proof.
  intros Hne Hw Hs Hr. destruct w as [|c w]; [congruence|].
  inversion Hw as [|? ? Hc Hw']; subst. simpl. rewrite Hc.
  now apply greedy_run.
Qed.

Lemma re_match_plus_inv (k : cls) (r : regex) (s : str) (g : list str) :
  re_match (Plus k :: r) s = Some g ->
  exists w s', s = w ++ s' /\ w <> [] /\ Forall (holds (cls_in k)) w
               /\ re_match r s' = Some g.
Proof.
  simpl. destruct s as [|c s]; [discriminate|].
  destruct (cls_in k c) eqn:Hc; [|discriminate].
  intros H. apply greedy_inv in H as (w & s' & -> & Hw & Hr).
  exists (c :: w), s'. repeat split; auto. discriminate.
Qed.

(** The lazy group stops at the first position where the rest matches. *)
Lemma lazy_cap_run (p : char -> bool) k (w s acc : str) (g : list str) :
  Forall (holds p) w -> k s = Some g ->
  (forall w1 x w2, w = w1 ++ x :: w2 -> k (x :: w2 ++ s) = None) ->
  lazy_cap p k acc (w ++ s) = Some ((acc ++ w) :: g).
Proof.
  intros Hw Hk. revert acc. induction Hw as [|c w Hc _ IH]; intros acc Hmin.
  - simpl. destruct s; simpl; rewrite Hk, app_nil_r; reflexivity.
  - simpl. rewrite (Hmin [] c w eq_refl), Hc.
    rewrite IH.
    + now rewrite <- app_assoc.
    + intros w1 x w2 E. apply (Hmin (c :: w1) x w2). simpl. now rewrite E.
Qed.

Lemma lazy_cap_inv (p : char -> bool) k (s acc : str) (m : list str) :
  lazy_cap p k acc s = Some m ->
  exists w s' g, s = w ++ s' /\ Forall (holds p) w /\ k s' = Some g
                 /\ m = (acc ++ w) :: g
                 /\ (forall w1 x w2, w = w1 ++ x :: w2 -> k (x :: w2 ++ s') = None).
Proof.
  revert acc. induction s as [|c s IH]; intros acc; simpl.
  - destruct (k []) as [g|] eqn:Hk; [|discriminate].
    intros [= <-]. exists [], [], g.
    repeat split; auto using Forall_nil; [now rewrite app_nil_r|].
    intros [|? ?] x w2 E; discriminate E.
  - destruct (k (c :: s)) as [g|] eqn:Hk.
    + intros [= <-]. exists [], (c :: s), g.
      repeat split; auto using Forall_nil; [now rewrite app_nil_r|].
      intros [|? ?] x w2 E; discriminate E.
    + destruct (p c) eqn:Hc; [|discriminate].
      intros H. apply IH in H as (w & s' & g & -> & Hw & Hg & -> & Hmin).
      exists (c :: w), s', g. rewrite <- app_assoc. repeat split; auto.
      intros [|y w1] x w2 E; simpl in E; injection E as -> ->.
      * exact Hk.
      * eapply Hmin. reflexivity.
Qed.

Lemma re_match_cap_plus (k : cls) (r : regex) (c : char) (w s : str) (g : list str) :
  cls_in k c = true -> Forall (holds (cls_in k)) w -> re_match r s = Some g ->
  (forall w1 x w2, w = w1 ++ x :: w2 -> re_match r (x :: w2 ++ s) = None) ->
  re_match (CapPlusLazy k :: r) (c :: w ++ s) = Some ((c :: w) :: g).
Proof.
  intros Hc Hw Hr Hmin. simpl. rewrite Hc.
  now rewrite (@lazy_cap_run (cls_in k) (re_match r) w s [c] g Hw Hr Hmin).
Qed.

Lemma re_match_cap_plus_inv (k : cls) (r : regex) (s : str) (m : list str) :
  re_match (CapPlusLazy k :: r) s = Some m ->
  exists c w s' g, s = c :: w ++ s' /\ cls_in k c = true /\ Forall (holds (cls_in k)) w
                   /\ re_match r s' = Some g /\ m = (c :: w) :: g
                   /\ (forall w1 x w2, w = w1 ++ x :: w2 ->
                                       re_match r (x :: w2 ++ s') = None).
Proof.
  simpl. destruct s as [|c s]; [discriminate|].
  destruct (cls_in k c) eqn:Hc; [|discriminate].
  intros H. apply lazy_cap_inv in H as (w & s' & g & -> & Hw & Hg & -> & Hmin).
  exists c, w, s', g. repeat split; auto.
Qed.

(** A text that does not begin with a double quote is not matched by a
    pattern that begins with one. *)
Lemma re_match_quote_first (r : regex) (x : char) (s : str) :
  x <> 34%N -> re_match (Lit quote :: r) (x :: s) = None.
Proof.
  intros Hx. destruct (re_match (Lit quote :: r) (x :: s)) eqn:E; [|reflexivity].
  apply re_match_lit_inv in E as (s' & E & _). injection E as E _. congruence.
Qed.

Lemma plain_tail_min (r : regex) (w s : str) :
  Forall plain_char w ->
  forall w1 x w2, w = w1 ++ x :: w2 -> re_match (Lit quote :: r) (x :: w2 ++ s) = None.
Proof.
  intros Hw w1 x w2 ->. apply re_match_quote_first.
  apply Forall_app in Hw as [_ Hw]. inversion Hw as [|? ? [Hq _] _]. exact Hq.
Qed.

Lemma plain_holds_any (w : str) : Forall plain_char w -> Forall (holds (cls_in Any)) w.
Proof.
  intros H. eapply Forall_impl; [|exact H]. intros c [_ Hc]. unfold holds. simpl.
  destruct (N.eqb_spec c 10); [contradiction | reflexivity].
Qed.

(** A quoted plain text, followed by whatever [r] matches. *)
Lemma re_match_quoted (r : regex) (n s : str) (g : list str) :
  plain n -> re_match r s = Some g ->
  re_match (Lit quote :: CapPlusLazy Any :: Lit quote :: r) (quoted n ++ s)
  = Some (n :: g).
Proof.
  intros [Hne Hn] Hr. destruct n as [|c w]; [congruence|].
  inversion Hn as [|? ? Hc Hw]; subst.
  unfold quoted. rewrite <- !app_assoc. rewrite re_match_lit.
  change ((c :: w) ++ quote ++ s) with (c :: w ++ quote ++ s).
  apply re_match_cap_plus.
  - assert (H : Forall (holds (cls_in Any)) [c])
      by (apply plain_holds_any; now constructor).
    now inversion H.
  - now apply plain_holds_any.
  - now rewrite re_match_lit.
  - now apply plain_tail_min.
Qed.

Lemma re_match_opt_skip (k : cls) (r : regex) (s : str) :
  stops (cls_in k) s -> re_match (Opt k :: r) s = re_match r s.
Proof.
  destruct s as [|c s]; [reflexivity|]. intros H.
  change (re_match (Opt k :: r) (c :: s))
    with (if cls_in k c then or_else (re_match r s) (re_match r (c :: s))
          else re_match r (c :: s)).
  now rewrite (H c eq_refl).
Qed.

Lemma re_match_opt_take (k : cls) (r : regex) (c : char) (s : str) (g : list str) :
  cls_in k c = true -> re_match r s = Some g -> re_match (Opt k :: r) (c :: s) = Some g.
Proof.
  intros Hc Hr.
  change (re_match (Opt k :: r) (c :: s))
    with (if cls_in k c then or_else (re_match r s) (re_match r (c :: s))
          else re_match r (c :: s)).
  now rewrite Hc, Hr.
Qed.

Lemma stops_cons (p : char -> bool) (c : char) (s : str) : p c = false -> stops p (c :: s).
Proof. intros H x [= <-]. exact H. Qed.

Lemma stops_nil (p : char -> bool) : stops p [].
Proof. intros x H. discriminate H. Qed.

Lemma stops_ws_quoted (n s : str) : stops (cls_in Ws) (quoted n ++ s).
Proof. apply stops_cons. reflexivity. Qed.

Lemma eqb_false (x y : char) : x <> y -> (x =? y)%N = false.
Proof. intros H. now apply N.eqb_neq. Qed.

(** ** White space at the ends of a line *)

Lemma lstrip_stops (s : str) : stops is_space s -> lstrip s = s.
Proof.
  destruct s as [|c s]; [reflexivity|]. intros H. simpl. now rewrite (H c eq_refl).
Qed.

Lemma strip_fixed (s : str) :
  stops is_space s -> stops is_space (rev s) -> strip s = s.
Proof.
  intros H1 H2. unfold strip, rstrip.
  rewrite (lstrip_stops H1), (lstrip_stops H2). apply rev_involutive.
Qed.

Lemma stops_rev_snoc (p : char -> bool) (s : str) (c : char) :
  p c = false -> stops p (rev (s ++ [c])).
Proof. intros H. rewrite rev_app_distr. simpl. now apply stops_cons. Qed.

Lemma stops_rev_app (p : char -> bool) (a v : str) :
  v <> [] -> stops p (rev v) -> stops p (rev (a ++ v)).
Proof.
  intros Hne H. rewrite rev_app_distr.
  destruct (rev v) as [|c t] eqn:E.
  - apply (f_equal (@rev _)) in E. rewrite rev_involutive in E. simpl in E. congruence.
  - simpl. apply stops_cons. exact (H c eq_refl).
Qed.

(** ** The four statements are matched, with the expected groups *)

Lemma graph_stmt_matches (name rest : str) :
  plain name -> re_match RE_GRAPH (graph_stmt name ++ rest) = Some [name].
Proof.
  intros Hn. unfold RE_GRAPH.
  change (graph_stmt name ++ rest) with (py "graph" ++ ([32%N] ++ quoted name) ++ rest).
  rewrite re_match_lit, <- app_assoc.
  apply re_match_plus; [discriminate | repeat constructor | apply stops_ws_quoted |].
  now apply re_match_quoted.
Qed.

Lemma two_quoted_matches (kw : str) (m : char) (ms : str) (a b rest : str) :
  is_space m = false -> plain a -> plain b ->
  re_match [Lit kw; Plus Ws; Lit quote; CapPlusLazy Any; Lit quote;
            Plus Ws; Lit (m :: ms); Plus Ws; Lit quote; CapPlusLazy Any; Lit quote]
           (kw ++ [32%N] ++ quoted a ++ [32%N] ++ (m :: ms) ++ [32%N] ++ quoted b ++ rest)
  = Some [a; b].
Proof.
  intros Hm Ha Hb.
  rewrite re_match_lit.
  apply re_match_plus; [discriminate | repeat constructor | apply stops_ws_quoted |].
  apply re_match_quoted; [assumption|].
  apply re_match_plus; [discriminate | repeat constructor | now apply stops_cons |].
  rewrite re_match_lit.
  apply re_match_plus; [discriminate | repeat constructor | apply stops_ws_quoted |].
  now apply re_match_quoted.
Qed.

Lemma component_stmt_matches (name ctype rest : str) :
  plain name -> plain ctype ->
  re_match RE_COMPONENT (component_stmt name ctype ++ rest) = Some [name; ctype].
Proof.
  intros Hn Ht. unfold component_stmt. rewrite <- !app_assoc.
  exact (@two_quoted_matches (py "component") 111%N [102%N] name ctype rest
                             eq_refl Hn Ht).
Qed.

Lemma connect_stmt_matches (src dst rest : str) :
  plain src -> plain dst ->
  re_match RE_CONNECT (connect_stmt src dst ++ rest) = Some [src; dst].
Proof.
  intros Hs Hd. unfold connect_stmt. rewrite <- !app_assoc.
  exact (@two_quoted_matches (py "connect") 116%N [111%N] src dst rest
                             eq_refl Hs Hd).
Qed.

(** The part of the parameter pattern after the opening of the value. *)
Lemma value_end_none (x : char) (s : str) :
  x <> 34%N -> x <> 59%N -> x <> 10%N ->
  re_match [Opt (Ch 34%N); Opt (Ch 59%N); Eos] (x :: s) = None.
Proof.
  intros H1 H2 H3.
  rewrite re_match_opt_skip by (apply stops_cons; now apply eqb_false).
  rewrite re_match_opt_skip by (apply stops_cons; now apply eqb_false).
  destruct s as [|y s]; [|reflexivity].
  change (re_match [Eos] [x]) with (if (x =? 10)%N then Some (@nil str) else None).
  now rewrite eqb_false.
Qed.

Lemma value_matches (v ending : str) :
  bare_value v ->
  re_match [Opt (Ch 34%N); Opt (Ch 59%N); Eos] ending = Some [] ->
  re_match [CapStarLazy Any; Opt (Ch 34%N); Opt (Ch 59%N); Eos] (v ++ ending)
  = Some [v].
Proof.
  intros ([Hne Hplain] & Hsemi & _ & _) Hend.
  change (re_match [CapStarLazy Any; Opt (Ch 34%N); Opt (Ch 59%N); Eos] (v ++ ending))
    with (lazy_cap (cls_in Any) (re_match [Opt (Ch 34%N); Opt (Ch 59%N); Eos]) []
                   (v ++ ending)).
  rewrite (@lazy_cap_run (cls_in Any) _ v ending [] []); auto.
  - now apply plain_holds_any.
  - intros w1 x w2 ->.
    apply Forall_app in Hplain as [_ Hp]. apply Forall_app in Hsemi as [_ Hs].
    inversion Hp as [|? ? [Hq Hl] _]. inversion Hs as [|? ? Hsc _].
    now apply value_end_none.
Qed.

Lemma parameter_value_matches (vq semi : bool) (v : str) :
  bare_value v ->
  re_match [Opt (Ch 34%N); CapStarLazy Any; Opt (Ch 34%N); Opt (Ch 59%N); Eos]
           ((if vq then quoted v else v) ++ (if semi then py ";" else []))
  = Some [v].
Proof.
  intros Hv. destruct vq.
  - unfold quoted. rewrite <- !app_assoc.
    change (quote ++ v ++ quote ++ (if semi then py ";" else []))
      with (34%N :: v ++ (quote ++ (if semi then py ";" else []))).
    apply re_match_opt_take; [reflexivity|].
    apply value_matches; [assumption|]. now destruct semi.
  - destruct Hv as ([Hne Hplain] & Hsemi & Hfirst & Hlast).
    rewrite re_match_opt_skip.
    + apply value_matches; [repeat split; assumption|]. now destruct semi.
    + destruct v as [|x v]; [congruence|]. simpl. apply stops_cons.
      inversion Hplain as [|? ? [Hq _] _]. simpl. now apply eqb_false.
Qed.

Lemma parameter_stmt_matches (vq semi : bool) (name value : str) :
  plain name -> bare_value value ->
  re_match RE_PARAMETER (parameter_stmt vq semi name value) = Some [name; value].
Proof.
  intros Hn Hv. unfold RE_PARAMETER, parameter_stmt.
  change (py "parameter " ++ quoted name ++ py " = "
             ++ (if vq then quoted value else value) ++ (if semi then py ";" else []))
    with (py "parameter" ++ [32%N] ++ quoted name ++ [32%N] ++ py "=" ++ [32%N]
             ++ (if vq then quoted value else value) ++ (if semi then py ";" else [])).
  rewrite re_match_lit.
  apply re_match_plus; [discriminate | repeat constructor | apply stops_ws_quoted |].
  apply re_match_quoted; [assumption|].
  apply re_match_plus; [discriminate | repeat constructor | now apply stops_cons |].
  rewrite re_match_lit.
  apply re_match_plus; [discriminate | repeat constructor | |].
  - destruct Hv as ([Hne Hplain] & Hsemi & Hfirst & Hlast).
    destruct vq; [apply stops_ws_quoted|].
    destruct value as [|x v]; [congruence|]. simpl. apply stops_cons.
    exact (Hfirst x eq_refl).
  - now apply parameter_value_matches.
Qed.

(** ** The number of groups of a match *)

Lemma re_match_groups (r : regex) :
  forall s m, re_match r s = Some m -> length m = groups_of r.
Proof.
  induction r as [|i r IH]; intros s m H.
  - injection H as <-. reflexivity.
  - destruct i.
    + apply re_match_lit_inv in H as (s' & _ & H). eauto.
    + apply re_match_plus_inv in H as (w & s' & _ & _ & _ & H). eauto.
    + simpl in H. destruct s as [|c s]; [eauto|].
      destruct (cls_in k c); [|eauto].
      destruct (re_match r s) eqn:E; simpl in H; [injection H as <-|]; eauto.
    + apply re_match_cap_plus_inv in H as (c & w & s' & g & _ & _ & _ & H & -> & _).
      simpl. f_equal. eauto.
    + simpl in H. apply lazy_cap_inv in H as (w & s' & g & _ & _ & H & -> & _).
      simpl. f_equal. eauto.
    + simpl in H. destruct (at_end s); [eauto | discriminate].
Qed.

Lemma groups_two (r : regex) (s : str) (m : list str) :
  groups_of r = 2 -> re_match r s = Some m -> m = [group 0 m; group 1 m].
Proof.
  intros Hr H. apply re_match_groups in H. rewrite Hr in H.
  destruct m as [|a [|b [|c m]]]; try discriminate. reflexivity.
Qed.

Lemma groups_one (r : regex) (s : str) (m : list str) :
  groups_of r = 1 -> re_match r s = Some m -> m = [group 0 m].
Proof.
  intros Hr H. apply re_match_groups in H. rewrite Hr in H.
  destruct m as [|a [|b m]]; try discriminate. reflexivity.
Qed.

(** ** The loop body, statement by statement *)

Lemma parse_line_graph (graph : Graph) (current : option str) (raw : str) (m : list str) :
  re_match RE_GRAPH (strip raw) = Some m ->
  parse_line (graph, current) raw =
  Some (mkGraph (group 0 m) (components graph) (connections graph), current).
Proof.
  intros H. unfold parse_line. rewrite H.
  now rewrite (@re_match_lit_starts _ _ _ _ H).
Qed.

Lemma parse_line_component (graph : Graph) (current : option str) (raw : str)
      (m : list str) :
  re_match RE_COMPONENT (strip raw) = Some m ->
  parse_line (graph, current) raw =
  Some (mkGraph (graph_name graph)
          (Dict.set (group 0 m) (mkComponent (group 1 m) (Dict.empty _)) (components graph))
          (connections graph),
        Some (group 0 m)).
Proof.
  intros H. unfold parse_line. rewrite H.
  rewrite (@re_match_lit_starts _ _ _ _ H).
  apply re_match_lit_inv in H as (s' & -> & _). reflexivity.
Qed.

Lemma parse_line_parameter (graph : Graph) (cur : str) (comp : Component) (raw : str)
      (m : list str) :
  re_match RE_PARAMETER (strip raw) = Some m ->
  cur <> [] -> Dict.get cur (components graph) = Some comp ->
  parse_line (graph, Some cur) raw =
  Some (mkGraph (graph_name graph)
          (Dict.set cur (mkComponent (type comp)
                                     (Dict.set (group 0 m) (group 1 m) (parameters comp)))
                    (components graph))
          (connections graph),
        Some cur).
Proof.
  intros H Hcur Hget. unfold parse_line. rewrite H, Hget.
  rewrite (@re_match_lit_starts _ _ _ _ H).
  apply re_match_lit_inv in H as (s' & -> & _).
  destruct cur; [congruence | reflexivity].
Qed.

Lemma parse_line_connect (graph : Graph) (current : option str) (raw : str)
      (m : list str) :
  re_match RE_CONNECT (strip raw) = Some m ->
  parse_line (graph, current) raw =
  Some (mkGraph (graph_name graph) (components graph)
          (connections graph ++ [(group 0 m, group 1 m)]),
        current).
Proof.
  intros H. unfold parse_line. rewrite H.
  rewrite (@re_match_lit_starts _ _ _ _ H).
  apply re_match_lit_inv in H as (s' & -> & _). reflexivity.
Qed.

(** What one line can do to the state. *)
Lemma parse_line_cases (graph : Graph) (current : option str) (raw : str)
      (st' : parse_state) :
  parse_line (graph, current) raw = Some st' ->
  (exists m, re_match RE_GRAPH (strip raw) = Some m
             /\ st' = (mkGraph (group 0 m) (components graph) (connections graph),
                       current))
  \/ (exists m, re_match RE_COMPONENT (strip raw) = Some m
                /\ st' = (mkGraph (graph_name graph)
                            (Dict.set (group 0 m)
                                      (mkComponent (group 1 m) (Dict.empty _))
                                      (components graph))
                            (connections graph),
                          Some (group 0 m)))
  \/ (exists m cur comp,
         re_match RE_PARAMETER (strip raw) = Some m
         /\ current = Some cur /\ Dict.get cur (components graph) = Some comp
         /\ st' = (mkGraph (graph_name graph)
                     (Dict.set cur
                               (mkComponent (type comp)
                                  (Dict.set (group 0 m) (group 1 m) (parameters comp)))
                               (components graph))
                     (connections graph),
                   current))
  \/ (exists m, re_match RE_CONNECT (strip raw) = Some m
                /\ st' = (mkGraph (graph_name graph) (components graph)
                            (connections graph ++ [(group 0 m, group 1 m)]),
                          current))
  \/ st' = (graph, current).
Proof.
  unfold parse_line.
  destruct (startswith (strip raw) (py "graph")).
  { destruct (re_match RE_GRAPH (strip raw)) as [m|]; intros [= <-]; eauto 10. }
  destruct (startswith (strip raw) (py "component")).
  { destruct (re_match RE_COMPONENT (strip raw)) as [m|]; intros [= <-]; eauto 10. }
  destruct (startswith (strip raw) (py "parameter") && truthy current).
  { destruct (re_match RE_PARAMETER (strip raw)) as [m|]; [|intros [= <-]; eauto 10].
    destruct current as [cur|]; [|discriminate].
    destruct (Dict.get cur (components graph)) as [comp|] eqn:E; [|discriminate].
    intros [= <-]. right. right. left. exists m, cur, comp. auto. }
  destruct (startswith (strip raw) (py "connect")).
  { destruct (re_match RE_CONNECT (strip raw)) as [m|]; intros [= <-]; eauto 10. }
  intros [= <-]. eauto 10.
Qed.

(* ------------------------------------------------------------------ *)
(** ** The graph name *)
(* ------------------------------------------------------------------ *)

(** The shape [graph_decl] is exactly what the graph pattern accepts. *)
Lemma graph_decl_matches (raw name : str) :
  graph_decl raw name -> re_match RE_GRAPH (strip raw) = Some [name].
Proof.
  intros (ws & c & t & rest & -> & Hne & Hws & -> & Hc & Ht).
  unfold RE_GRAPH. rewrite re_match_lit.
  apply re_match_plus; [assumption | assumption | now apply stops_cons |].
  rewrite re_match_lit.
  change ((c :: t) ++ quote ++ rest) with (c :: t ++ quote ++ rest).
  apply re_match_cap_plus.
  - simpl. now rewrite eqb_false.
  - now apply plain_holds_any.
  - now rewrite re_match_lit.
  - now apply plain_tail_min.
Qed.

Lemma graph_matches_decl (raw : str) (m : list str) :
  re_match RE_GRAPH (strip raw) = Some m -> m = [group 0 m] /\ graph_decl raw (group 0 m).
Proof.
  intros H. pose proof (groups_one RE_GRAPH _ eq_refl H) as Hm. split; [exact Hm|].
  unfold RE_GRAPH in H.
  apply re_match_lit_inv in H as (s1 & E1 & H).
  apply re_match_plus_inv in H as (ws & s2 & -> & Hne & Hws & H).
  apply re_match_lit_inv in H as (s3 & -> & H).
  apply re_match_cap_plus_inv in H as (c & w & s4 & g & -> & Hc & Hw & H & -> & Hmin).
  pose proof H as Hq. apply re_match_lit_inv in H as (s5 & -> & _).
  exists ws, c, w, s5. repeat split; auto.
  - simpl in Hc. intros ->. discriminate Hc.
  - apply Forall_forall. intros x Hx. split.
    + intros ->. apply in_split in Hx as (w1 & w2 & ->).
      specialize (Hmin w1 34%N w2 eq_refl).
      change (34%N :: w2 ++ quote ++ s5) with (quote ++ w2 ++ quote ++ s5) in Hmin.
      rewrite re_match_lit in Hmin. discriminate Hmin.
    + rewrite Forall_forall in Hw. specialize (Hw x Hx). unfold holds in Hw.
      simpl in Hw. intros ->. discriminate Hw.
Qed.

Lemma no_graph_decl (raw : str) :
  (forall name, ~ graph_decl raw name) <-> re_match RE_GRAPH (strip raw) = None.
Proof.
  split.
  - intros H. destruct (re_match RE_GRAPH (strip raw)) as [m|] eqn:E; [|reflexivity].
    apply graph_matches_decl in E as [_ E]. now apply H in E.
  - intros H name Hd. apply graph_decl_matches in Hd. congruence.
Qed.

Lemma name_after_line (st st' : parse_state) (raw : str) :
  parse_line st raw = Some st' ->
  graph_name (fst st') =
  match re_match RE_GRAPH (strip raw) with
  | Some m => group 0 m
  | None => graph_name (fst st)
  end.
Proof.
  destruct st as [graph current]. intros H.
  destruct (re_match RE_GRAPH (strip raw)) as [m|] eqn:E.
  - rewrite (parse_line_graph graph current raw E) in H. now injection H as <-.
  - apply parse_line_cases in H
      as [(m & Hm & ->)|[(m & Hm & ->)|[(m & cur & comp & Hm & _ & _ & ->)|[(m & Hm & ->)| ->]]]];
      try reflexivity. congruence.
Qed.

Lemma name_kept (lines : list str) :
  forall st st', (forall raw, In raw lines -> re_match RE_GRAPH (strip raw) = None) ->
                 parse_lines st lines = Some st' ->
                 graph_name (fst st') = graph_name (fst st).
Proof.
  induction lines as [|raw rest IH]; intros st st' Hno H; simpl in H.
  - now injection H as <-.
  - destruct (parse_line st raw) as [st1|] eqn:E; [|discriminate].
    rewrite (IH _ _ (fun r Hr => Hno r (or_intror Hr)) H).
    rewrite (name_after_line _ _ E), (Hno raw (or_introl eq_refl)). reflexivity.
Qed.

(** C9.  Extraction of any input succeeds; the name of the model is the
    quoted text of the last line of the shape [graph "<name>"], and the empty
    string when there is no such line. *)
Theorem graph_name_last_declaration (lines : list str) :
  exists graph,
    parse_mp lines = Some graph
    /\ ((forall raw name, In raw lines -> ~ graph_decl raw name) ->
        graph_name graph = [])
    /\ (forall pre raw post name,
           lines = pre ++ raw :: post -> graph_decl raw name ->
           (forall raw' name', In raw' post -> ~ graph_decl raw' name') ->
           graph_name graph = name).
Proof.
  destruct (parse_lines_total lines cursor_ok_initial) as (st & Hst & _).
  exists (fst st). unfold parse_mp. rewrite Hst. split; [reflexivity|]. split.
  - intros Hno. rewrite (name_kept lines initial_state); [reflexivity| |exact Hst].
    intros raw Hin. apply no_graph_decl. intros name. now apply Hno.
  - intros pre raw post name -> Hd Hno.
    rewrite parse_lines_app in Hst.
    destruct (parse_lines initial_state pre) as [st1|]; [|discriminate].
    simpl in Hst. destruct (parse_line st1 raw) as [st2|] eqn:E; [|discriminate].
    rewrite (name_kept post st2); [| |exact Hst].
    + rewrite (name_after_line _ _ E), (graph_decl_matches Hd). reflexivity.
    + intros raw' Hin. apply no_graph_decl. intros name'. now apply Hno.
Qed.

(* ------------------------------------------------------------------ *)
(** ** Parameter statements *)
(* ------------------------------------------------------------------ *)

Lemma parameter_stmt_strip (vq semi : bool) (name value : str) :
  bare_value value ->
  strip (parameter_stmt vq semi name value) = parameter_stmt vq semi name value.
Proof.
  intros ([Hne _] & _ & _ & Hlast). apply strip_fixed.
  - apply stops_cons. reflexivity.
  - unfold parameter_stmt, quoted, quote. destruct semi.
    + change (py ";") with [59%N]. rewrite !app_assoc. now apply stops_rev_snoc.
    + rewrite app_nil_r. destruct vq.
      * rewrite !app_assoc. now apply stops_rev_snoc.
      * rewrite !app_assoc. now apply stops_rev_app.
Qed.

(** Each of the four spellings assigns [value] to [name] in the current
    component. *)
Lemma parameter_stmt_assigns (graph : Graph) (cur : str) (comp : Component)
      (vq semi : bool) (name value : str) :
  cur <> [] -> Dict.get cur (components graph) = Some comp ->
  plain name -> bare_value value ->
  parse_line (graph, Some cur) (parameter_stmt vq semi name value)
  = Some (with_parameter graph cur comp name value).
Proof.
  intros Hcur Hget Hn Hv.
  assert (H : re_match RE_PARAMETER (strip (parameter_stmt vq semi name value))
              = Some [name; value]).
  { rewrite parameter_stmt_strip by assumption. now apply parameter_stmt_matches. }
  now rewrite (@parse_line_parameter graph cur comp _ _ H Hcur Hget).
Qed.

(** C7 (amended).  While a current component exists, the four spellings
    [parameter "n" = "v";], [parameter "n" = "v"], [parameter "n" = v;] and
    [parameter "n" = v] all set parameter [n] of the current component to
    [v], for a name that is non-empty and free of double quotes and line
    feeds, and a value that is non-empty, free of double quotes, semicolons
    and line feeds, and has no white space at either end. *)
Theorem parameter_spellings_agree (graph : Graph) (cur : str) (comp : Component)
        (name value : str) :
  cur <> [] -> Dict.get cur (components graph) = Some comp ->
  plain name -> bare_value value ->
  forall value_quoted semicolon : bool,
    parse_line (graph, Some cur) (parameter_stmt value_quoted semicolon name value)
    = Some (with_parameter graph cur comp name value).
Proof.
  intros Hcur Hget Hn Hv vq semi. now apply parameter_stmt_assigns.
Qed.

(* ------------------------------------------------------------------ *)
(** ** Lines that match no pattern *)
(* ------------------------------------------------------------------ *)

(** C10.  A line that matches none of the four patterns leaves the whole
    state (graph name, component map, edge list and cursor) as it was, so
    the lines after it are processed from the same state; in particular a
    parameter statement that follows it is still assigned to the component
    that was current before it. *)
Theorem unmatched_line_leaves_state (st : parse_state) (raw : str) :
  matches_none raw = true ->
  parse_line st raw = Some st
  /\ (forall rest, parse_lines st (raw :: rest) = parse_lines st rest)
  /\ (forall graph cur comp name value vq semi,
         st = (graph, Some cur) -> cur <> [] ->
         Dict.get cur (components graph) = Some comp ->
         plain name -> bare_value value ->
         parse_lines st [raw; parameter_stmt vq semi name value]
         = Some (with_parameter graph cur comp name value)).
Proof.
  intros H. pose proof (parse_line_unmatched st raw H) as E.
  split; [exact E|]. split.
  - intros rest. now rewrite parse_lines_cons, E.
  - intros graph cur comp name value vq semi -> Hcur Hget Hn Hv.
    rewrite parse_lines_cons, E, parse_lines_cons.
    now rewrite (parameter_stmt_assigns graph vq semi Hcur Hget Hn Hv).
Qed.

(** C4.  Extraction returns a model for every sequence of lines, and a line
    that matches none of the four patterns can be deleted from the input
    without changing the result: the lines after it are processed as if it
    were not there. *)
Theorem extract_total_skips_unmatched (lines : list str) :
  (exists graph, parse_mp lines = Some graph)
  /\ (forall pre raw post,
         lines = pre ++ raw :: post -> matches_none raw = true ->
         parse_mp lines = parse_mp (pre ++ post)).
Proof.
  split.
  - destruct (parse_lines_total lines cursor_ok_initial) as (st & Hst & _).
    exists (fst st). unfold parse_mp. now rewrite Hst.
  - intros pre raw post -> H. unfold parse_mp. rewrite !parse_lines_app.
    destruct (parse_lines initial_state pre) as [st|]; [|reflexivity].
    now rewrite parse_lines_cons, (parse_line_unmatched st raw H).
Qed.

(* ------------------------------------------------------------------ *)
(** ** Component declarations *)
(* ------------------------------------------------------------------ *)

Lemma component_decl_line (graph : Graph) (current : option str) (raw name ctype : str) :
  component_decl raw name ctype ->
  parse_line (graph, current) raw =
  Some (mkGraph (graph_name graph)
          (Dict.set name (mkComponent ctype (Dict.empty _)) (components graph))
          (connections graph),
        Some name).
Proof. intros H. now rewrite (parse_line_component graph current raw H). Qed.

Lemma component_matches_decl (raw : str) (m : list str) :
  re_match RE_COMPONENT (strip raw) = Some m -> component_decl raw (group 0 m) (group 1 m).
Proof.
  intros H. unfold component_decl. rewrite H. f_equal.
  exact (groups_two RE_COMPONENT _ eq_refl H).
Qed.

Lemma parameter_matches_decl (raw : str) (m : list str) :
  re_match RE_PARAMETER (strip raw) = Some m -> parameter_decl raw (group 0 m) (group 1 m).
Proof.
  intros H. unfold parameter_decl. rewrite H. f_equal.
  exact (groups_two RE_PARAMETER _ eq_refl H).
Qed.

(** The cursor and the entry of [name] after a line depend only on the
    cursor and the entry of [name] before it. *)
Lemma parse_line_same_view (name : str) (st1 st2 st1' st2' : parse_state) (raw : str) :
  same_view name st1 st2 ->
  parse_line st1 raw = Some st1' -> parse_line st2 raw = Some st2' ->
  same_view name st1' st2'.
Proof.
  destruct st1 as [g1 c1], st2 as [g2 c2]. intros [Hc Hn].
  simpl in Hc. subst c2. unfold component_of in Hn. simpl in Hn.
  unfold parse_line.
  destruct (startswith (strip raw) (py "graph")).
  { destruct (re_match RE_GRAPH (strip raw)); intros [= <-] [= <-]; now split. }
  destruct (startswith (strip raw) (py "component")).
  { destruct (re_match RE_COMPONENT (strip raw)) as [m|]; intros [= <-] [= <-];
      [|now split].
    split; [reflexivity|]. unfold component_of. simpl.
    destruct (str_eq_dec (group 0 m) name) as [->|Hne].
    - now rewrite !DictFacts.get_set_same.
    - now rewrite !DictFacts.get_set_other. }
  destruct (startswith (strip raw) (py "parameter") && truthy c1).
  { destruct (re_match RE_PARAMETER (strip raw)) as [m|];
      [|intros [= <-] [= <-]; now split].
    destruct c1 as [cur|]; [|discriminate].
    destruct (Dict.get cur (components g1)) as [comp1|] eqn:E1; [|discriminate].
    destruct (Dict.get cur (components g2)) as [comp2|] eqn:E2; [|discriminate].
    intros [= <-] [= <-]. split; [reflexivity|]. unfold component_of. simpl.
    destruct (str_eq_dec cur name) as [->|Hne].
    - rewrite !DictFacts.get_set_same. congruence.
    - now rewrite !DictFacts.get_set_other. }
  destruct (startswith (strip raw) (py "connect")).
  { destruct (re_match RE_CONNECT (strip raw)); intros [= <-] [= <-]; now split. }
  intros [= <-] [= <-]. now split.
Qed.

Lemma parse_lines_same_view (name : str) (lines : list str) :
  forall st1 st2 st1' st2',
    same_view name st1 st2 ->
    parse_lines st1 lines = Some st1' -> parse_lines st2 lines = Some st2' ->
    same_view name st1' st2'.
Proof.
  induction lines as [|raw rest IH]; intros st1 st2 st1' st2' Hv H1 H2.
  - simpl in H1, H2. congruence.
  - rewrite parse_lines_cons in H1, H2.
    destruct (parse_line st1 raw) as [s1|] eqn:E1; [|discriminate].
    destruct (parse_line st2 raw) as [s2|] eqn:E2; [|discriminate].
    eapply IH; [|exact H1|exact H2]. eapply parse_line_same_view; eauto.
Qed.

(** The keys of the component map stay distinct, and none is removed. *)
Lemma parse_line_keys (st st' : parse_state) (raw : str) :
  parse_line st raw = Some st' ->
  (NoDup (Dict.keys (components (fst st))) -> NoDup (Dict.keys (components (fst st'))))
  /\ (forall k, In k (Dict.keys (components (fst st))) ->
                In k (Dict.keys (components (fst st')))).
Proof.
  destruct st as [graph current]. intros H.
  apply parse_line_cases in H
    as [(m & Hm & ->)|[(m & Hm & ->)|[(m & cur & comp & Hm & _ & _ & ->)|[(m & Hm & ->)| ->]]]];
    simpl; split; auto using DictFacts.NoDup_keys_set;
    intros k Hk; apply DictFacts.in_keys_set; auto.
Qed.

Lemma parse_lines_keys (lines : list str) :
  forall st st',
    parse_lines st lines = Some st' ->
    (NoDup (Dict.keys (components (fst st))) -> NoDup (Dict.keys (components (fst st'))))
    /\ (forall k, In k (Dict.keys (components (fst st))) ->
                  In k (Dict.keys (components (fst st')))).
Proof.
  induction lines as [|raw rest IH]; intros st st' H.
  - simpl in H. injection H as <-. auto.
  - rewrite parse_lines_cons in H.
    destruct (parse_line st raw) as [s1|] eqn:E; [|discriminate].
    destruct (parse_line_keys _ _ E) as [N1 K1]. destruct (IH _ _ H) as [N2 K2].
    split; auto.
Qed.

(** Unless the line declares [name] again, the entry of [name] keeps its
    type, and its parameters come from lines seen so far. *)
Lemma parse_line_entry (name ctype : str) (seen : list str) (st st' : parse_state)
      (raw : str) (comp : Component) :
  (forall Z, ~ component_decl raw name Z) ->
  component_of st name = Some comp -> type comp = ctype -> assigned_by seen comp ->
  parse_line st raw = Some st' ->
  exists comp', component_of st' name = Some comp' /\ type comp' = ctype
                /\ assigned_by (raw :: seen) comp'.
Proof.
  destruct st as [graph current]. unfold component_of. simpl.
  intros Hno Hget Hty Hby H.
  assert (Hby' : assigned_by (raw :: seen) comp).
  { intros p v Hp. destruct (Hby p v Hp) as (r & Hr & Hd). exists r. simpl. auto. }
  apply parse_line_cases in H
    as [(m & Hm & ->)|[(m & Hm & ->)|[(m & cur & cmp & Hm & _ & Hcur & ->)|[(m & Hm & ->)| ->]]]];
    simpl; eauto.
  - destruct (str_eq_dec (group 0 m) name) as [E|Hne].
    + exfalso. apply (Hno (group 1 m)). rewrite <- E. now apply component_matches_decl.
    + rewrite DictFacts.get_set_other by assumption. eauto.
  - destruct (str_eq_dec cur name) as [->|Hne].
    + rewrite DictFacts.get_set_same. rewrite Hget in Hcur. injection Hcur as <-.
      eexists. split; [reflexivity|]. split; [exact Hty|].
      intros p v. simpl. destruct (str_eq_dec (group 0 m) p) as [<-|Hp].
      * rewrite DictFacts.get_set_same. intros [= <-]. exists raw. split; [now left|].
        now apply parameter_matches_decl.
      * rewrite DictFacts.get_set_other by assumption. apply Hby'.
    + rewrite DictFacts.get_set_other by assumption. eauto.
Qed.

Lemma parse_lines_entry (name ctype : str) (lines : list str) :
  forall seen st st' comp,
    (forall raw Z, In raw lines -> ~ component_decl raw name Z) ->
    component_of st name = Some comp -> type comp = ctype -> assigned_by seen comp ->
    parse_lines st lines = Some st' ->
    exists comp', component_of st' name = Some comp' /\ type comp' = ctype
                  /\ assigned_by (lines ++ seen) comp'.
Proof.
  induction lines as [|raw rest IH]; intros seen st st' comp Hno Hget Hty Hby H.
  - simpl in H. injection H as <-. eauto.
  - rewrite parse_lines_cons in H.
    destruct (parse_line st raw) as [s1|] eqn:E; [|discriminate].
    destruct (@parse_line_entry name ctype seen st s1 raw comp) as (c1 & G1 & T1 & B1); auto.
    { intros Z. apply Hno. now left. }
    destruct (IH (raw :: seen) s1 st' c1) as (c2 & G2 & T2 & B2); auto.
    { intros r Z Hr. apply Hno. now right. }
    exists c2. repeat split; auto.
    intros p v Hp. destruct (B2 p v Hp) as (r & Hr & Hd). exists r. split; [|exact Hd].
    apply in_app_iff in Hr as [Hr|[<-|Hr]]; simpl; rewrite ?in_app_iff; auto.
Qed.

Lemma cursor_ok_declared (gname : str) (comps : Dict.t Component)
      (conns : list (str * str)) (name : str) (comp : Component) :
  cursor_ok (mkGraph gname (Dict.set name comp comps) conns, Some name).
Proof.
  intros cur Hc. injection Hc as <-.
  change (Dict.get name (Dict.set name comp comps) <> None).
  rewrite DictFacts.get_set_same. discriminate.
Qed.

(** C5.  When a component name is declared twice, after the second
    declaration the name is the cursor and its entry has the second type and
    no parameters.  At the end of the input (no further declaration of the
    name) the map has exactly one entry for the name; it has the second type;
    each of its parameters was assigned by a line after the second
    declaration; and it is the entry that the second declaration and the
    lines after it produce on their own, whatever came before. *)
Theorem redeclared_component (pre mid post : list str) (first second : str)
        (name X Y : str) :
  component_decl first name X -> component_decl second name Y ->
  (forall raw Z, In raw post -> ~ component_decl raw name Z) ->
  exists st_second st_end st_alone comp,
    parse_lines initial_state (pre ++ first :: mid ++ [second]) = Some st_second
    /\ snd st_second = Some name
    /\ component_of st_second name = Some (mkComponent Y (Dict.empty _))
    /\ parse_lines initial_state (pre ++ first :: mid ++ second :: post) = Some st_end
    /\ parse_mp (pre ++ first :: mid ++ second :: post) = Some (fst st_end)
    /\ count_occ str_eq_dec (Dict.keys (components (fst st_end))) name = 1
    /\ component_of st_end name = Some comp
    /\ type comp = Y
    /\ assigned_by post comp
    /\ parse_lines initial_state (second :: post) = Some st_alone
    /\ component_of st_alone name = Some comp.
Proof.
  intros _ Hsecond Hno.
  destruct (parse_lines_total (pre ++ first :: mid) cursor_ok_initial) as (st0 & H0 & _).
  destruct st0 as [g0 c0].
  pose proof (component_decl_line g0 c0 Hsecond) as Hline.
  set (st2 := (mkGraph (graph_name g0)
                 (Dict.set name (mkComponent Y (Dict.empty _)) (components g0))
                 (connections g0), Some name)) in *.
  assert (Hok2 : cursor_ok st2).
  { apply cursor_ok_declared. }
  destruct (parse_lines_total post Hok2) as (st3 & H3 & _).
  (* the second declaration and what follows, on their own *)
  pose proof (component_decl_line (fst initial_state) (snd initial_state) Hsecond)
    as Hline'.
  change (fst initial_state, snd initial_state) with initial_state in Hline'.
  set (sa := (mkGraph (graph_name (fst initial_state))
                (Dict.set name (mkComponent Y (Dict.empty _))
                          (components (fst initial_state)))
                (connections (fst initial_state)), Some name)) in *.
  assert (Hoka : cursor_ok sa).
  { apply cursor_ok_declared. }
  destruct (parse_lines_total post Hoka) as (st4 & H4 & _).
  assert (Hget2 : component_of st2 name = Some (mkComponent Y (Dict.empty _))).
  { unfold component_of, st2. simpl. apply DictFacts.get_set_same. }
  destruct (@parse_lines_entry name Y post [] st2 st3 _ Hno Hget2 eq_refl)
    as (comp & Hget & Hty & Hby); [intros p v Hp; discriminate Hp | exact H3 |].
  assert (Hview : same_view name st3 st4).
  { eapply parse_lines_same_view; [|exact H3|exact H4].
    split; [reflexivity|]. unfold component_of, st2, sa. cbn [fst components].
    now rewrite !DictFacts.get_set_same. }
  exists st2, st3, st4, comp.
  assert (Hsec : parse_lines initial_state (pre ++ first :: mid ++ [second]) = Some st2).
  { change (pre ++ first :: mid ++ [second]) with (pre ++ (first :: mid) ++ [second]).
    rewrite app_assoc, parse_lines_app, H0, parse_lines_cons, Hline. reflexivity. }
  assert (Hend : parse_lines initial_state (pre ++ first :: mid ++ second :: post)
                 = Some st3).
  { change (pre ++ first :: mid ++ second :: post)
      with (pre ++ (first :: mid) ++ second :: post).
    rewrite app_assoc, parse_lines_app, H0, parse_lines_cons, Hline. exact H3. }
  repeat split; auto.
  - unfold parse_mp. now rewrite Hend.
  - apply NoDup_count_occ'.
    + destruct (parse_lines_keys _ _ Hend) as [Hnd _]. apply Hnd.
      simpl. constructor.
    + destruct (parse_lines_keys _ _ H3) as [_ Hin]. apply Hin.
      unfold st2. simpl. apply DictFacts.in_keys_set. now left.
  - intros p v Hp. destruct (Hby p v Hp) as (r & Hr & Hd).
    exists r. rewrite app_nil_r in Hr. auto.
  - rewrite parse_lines_cons, Hline'. exact H4.
  - destruct Hview as [_ <-]. exact Hget.
Qed.

(* ------------------------------------------------------------------ *)
(** ** The phrase tables *)
(* ------------------------------------------------------------------ *)











(** The interpreter's mappings as far as they are fixed: the ASCII ones
    satisfy the assumption made of them. *)
Lemma ascii_case_mapping_ascii : ascii_case_mapping ascii_lower ascii_title.
Proof. intros s _. split; reflexivity. Qed.




(* ------------------------------------------------------------------ *)
(** ** The successor lookup *)
(* ------------------------------------------------------------------ *)

Lemma outs_targets (edges : list (str * str)) (n : str) : outs edges n = targets_of edges n.
Proof.
  unfold targets_of. induction edges as [|[s d] rest IH]; simpl; [reflexivity|].
  destruct (str_eqb s n); simpl; now rewrite IH.
Qed.

Lemma outs_app (e1 e2 : list (str * str)) (n : str) :
  outs (e1 ++ e2) n = outs e1 n ++ outs e2 n.
Proof.
  induction e1 as [|[s d] rest IH]; simpl; [reflexivity|].
  destruct (str_eqb s n); simpl; now rewrite IH.
Qed.

Lemma in_outs (edges : list (str * str)) (n d : str) :
  In d (outs edges n) <-> In (n, d) edges.
Proof.
  induction edges as [|[s t] rest IH]; simpl; [tauto|].
  destruct (str_eqb s n) eqn:E.
  - apply str_eqb_eq in E. subst s. simpl. rewrite IH.
    split; intros [H|H]; auto; left; congruence.
  - apply str_eqb_neq in E. rewrite IH.
    split; [auto | intros [H|H]; [congruence | assumption]].
Qed.

(** C8.  The successor list of a name, declared or not, is the list of the
    targets of the edges leaving that name, in edge order: it is the filter
    of the edge list by source, it distributes over concatenation of edge
    lists, and it does not look at the component map, hence not at the
    ordering computed from it. *)
Theorem successor_lookup_filters_edges (edges : list (str * str)) (n : str) :
  outs edges n = targets_of edges n
  /\ (forall d, In d (outs edges n) <-> In (n, d) edges)
  /\ (forall before after, edges = before ++ after ->
                           outs edges n = outs before n ++ outs after n)
  /\ (forall gname comps1 comps2,
         outs (connections (mkGraph gname comps1 edges)) n
         = outs (connections (mkGraph gname comps2 edges)) n).
Proof.
  split; [apply outs_targets|]. split; [intros d; apply in_outs|]. split.
  - intros before after ->. apply outs_app.
  - reflexivity.
Qed.

(* ------------------------------------------------------------------ *)
(** ** The flow analyzer: building the tables *)
(* ------------------------------------------------------------------ *)

Lemma mem_in (x : str) (l : list str) : mem x l = true <-> In x l.
Proof.
  unfold mem. rewrite existsb_exists. split.
  - intros (y & Hy & E). apply str_eqb_eq in E. now subst.
  - intros H. exists x. split; [assumption | apply str_eqb_refl].
Qed.

Lemma mem_not_in (x : str) (l : list str) : mem x l = false <-> ~ In x l.
Proof.
  rewrite <- mem_in. destruct (mem x l); split; congruence.
Qed.

Lemma indeg_init_fold (nodes : list str) (m : str) :
  forall d : Dict.t Z,
    Dict.get m (fold_left (fun d n => Dict.set n 0%Z d) nodes d)
    = if mem m nodes then Some 0%Z else Dict.get m d.
Proof.
  induction nodes as [|n ns IH]; intros d; [reflexivity|].
  cbn [fold_left]. rewrite IH. unfold mem. cbn [existsb]. fold (mem m ns).
  destruct (mem m ns); [now rewrite orb_true_r|]. rewrite orb_false_r.
  destruct (str_eqb m n) eqn:E.
  - apply str_eqb_eq in E. subst. apply DictFacts.get_set_same.
  - apply str_eqb_neq in E. apply DictFacts.get_set_other. congruence.
Qed.

Lemma indeg_init_get (nodes : list str) (m : str) :
  Dict.get m (indeg_init nodes) = if mem m nodes then Some 0%Z else None.
Proof. unfold indeg_init. now rewrite indeg_init_fold. Qed.

Lemma get_default_set (V : Type) (d : Dict.t V) (k k' : str) (v dflt : V) :
  Dict.get_default k' dflt (Dict.set k v d)
  = if str_eqb k k' then v else Dict.get_default k' dflt d.
Proof.
  unfold Dict.get_default. destruct (str_eqb k k') eqn:E.
  - apply str_eqb_eq in E. subst. now rewrite DictFacts.get_set_same.
  - apply str_eqb_neq in E. now rewrite DictFacts.get_set_other.
Qed.

Lemma indegree_cons (s d : str) (rest : list (str * str)) (m : str) :
  indegree ((s, d) :: rest) m
  = if str_eqb d m then S (indegree rest m) else indegree rest m.
Proof. unfold indegree. simpl. now destruct (str_eqb d m). Qed.

(** The first loop succeeds when every edge target is a key of [indeg]; it
    then appends the successors and adds the in-degrees. *)
Lemma count_edges_spec (edges : list (str * str)) :
  forall (out_edges : Dict.t (list str)) (indeg : Dict.t Z),
    (forall s d, In (s, d) edges -> Dict.get d indeg <> None) ->
    exists out_edges' indeg',
      count_edges edges out_edges indeg = Some (out_edges', indeg')
      /\ (forall n, Dict.get_default n [] out_edges'
                    = Dict.get_default n [] out_edges ++ outs edges n)
      /\ (forall m, Dict.get m indeg'
                    = option_map (fun z => (z + Z.of_nat (indegree edges m))%Z)
                                 (Dict.get m indeg)).
Proof.
  induction edges as [|[s d] rest IH]; intros oe indeg Hk.
  - exists oe, indeg. split; [reflexivity|]. split.
    + intros n. now rewrite app_nil_r.
    + intros m. destruct (Dict.get m indeg); simpl; [f_equal; lia | reflexivity].
  - cbn [count_edges].
    destruct (Dict.get d indeg) as [z|] eqn:Ed;
      [|exfalso; apply (Hk s d); [now left | assumption]].
    destruct (IH (Dict.set s (Dict.get_default s [] oe ++ [d]) oe)
                 (Dict.set d (z + 1)%Z indeg))
      as (oe' & indeg' & Hc & Ho & Hi).
    { intros s' d' Hin. destruct (str_eq_dec d d') as [<-|Hne].
      - rewrite DictFacts.get_set_same. discriminate.
      - rewrite DictFacts.get_set_other by assumption. apply (Hk s' d'). now right. }
    exists oe', indeg'. split; [exact Hc|]. split.
    + intros n. rewrite Ho, get_default_set. cbn [outs].
      destruct (str_eqb s n) eqn:E.
      * apply str_eqb_eq in E. subst. now rewrite <- app_assoc.
      * reflexivity.
    + intros m. rewrite Hi, indegree_cons.
      destruct (str_eqb d m) eqn:E.
      * apply str_eqb_eq in E. subst. rewrite DictFacts.get_set_same, Ed. simpl.
        f_equal. lia.
      * apply str_eqb_neq in E. now rewrite DictFacts.get_set_other.
Qed.

(** The first loop raises when an edge target is not a key of [indeg]. *)
Lemma count_edges_key_error (edges : list (str * str)) :
  forall (out_edges : Dict.t (list str)) (indeg : Dict.t Z) s d,
    In (s, d) edges -> Dict.get d indeg = None ->
    count_edges edges out_edges indeg = None.
Proof.
  induction edges as [|[s0 d0] rest IH]; intros oe indeg s d Hin Hd; [contradiction|].
  cbn [count_edges]. destruct (Dict.get d0 indeg) as [z|] eqn:E0; [|reflexivity].
  destruct Hin as [[= -> ->]|Hin]; [congruence|].
  apply (IH _ _ s d Hin). rewrite DictFacts.get_set_other; [assumption|].
  intros ->. congruence.
Qed.

(** The initial queue: the nodes of in-degree zero, in node order. *)
Lemma zero_indegree_spec (indeg : Dict.t Z) (nodes : list str) :
  (forall n, In n nodes -> Dict.get n indeg <> None) ->
  exists q, zero_indegree nodes indeg = Some q
            /\ (forall n, In n q <-> In n nodes /\ Dict.get n indeg = Some 0%Z)
            /\ (NoDup nodes -> NoDup q).
Proof.
  induction nodes as [|n ns IH]; intros Hk.
  - exists []. split; [reflexivity|].
    split; [intros n; simpl; tauto | intros _; constructor].
  - destruct IH as (q & Hq & Hin & Hnd); [intros x Hx; apply Hk; now right|].
    cbn [zero_indegree]. rewrite Hq.
    destruct (Dict.get n indeg) as [z|] eqn:En;
      [|exfalso; apply (Hk n); [now left | assumption]].
    eexists. split; [reflexivity|]. split.
    + intros x. destruct (Z.eqb_spec z 0) as [->|Hz]; simpl; rewrite Hin.
      * split; [intros [<-|[H1 H2]]; auto | intros [[<-|H1] H2]; auto].
      * split; [intros [H1 H2]; auto | intros [[<-|H1] H2]; auto; congruence].
    + intros Hn. inversion Hn as [|? ? Hnotin Hns]; subst.
      destruct (Z.eqb_spec z 0); [|auto].
      constructor; [|auto]. rewrite Hin. tauto.
Qed.

(* ------------------------------------------------------------------ *)
(** ** The flow analyzer: the queue loop *)
(* ------------------------------------------------------------------ *)

Lemma str_eqb_sym (a b : str) : str_eqb a b = str_eqb b a.
Proof.
  destruct (str_eqb a b) eqn:E1, (str_eqb b a) eqn:E2; try reflexivity.
  - apply str_eqb_eq in E1. apply str_eqb_neq in E2. congruence.
  - apply str_eqb_neq in E1. apply str_eqb_eq in E2. congruence.
Qed.

Lemma mem_snoc (x n : str) (l : list str) : mem x (l ++ [n]) = mem x l || str_eqb x n.
Proof. unfold mem. rewrite existsb_app. simpl. now rewrite orb_false_r. Qed.

Lemma pending_nil (edges : list (str * str)) (m : str) :
  pending edges [] m = indegree edges m.
Proof.
  unfold pending, indegree. f_equal. apply filter_ext. intros [s d]. simpl.
  apply andb_true_r.
Qed.

Lemma pending_zero_sources (edges : list (str * str)) (order : list str) (m : str) :
  pending edges order m = 0 -> forall s, In (s, m) edges -> In s order.
Proof.
  unfold pending. intros H s Hin.
  destruct (in_dec str_eq_dec s order) as [|Hout]; [assumption|]. exfalso.
  assert (Hf : In (s, m) (filter (fun e => str_eqb (snd e) m && negb (mem (fst e) order))
                                 edges)).
  { apply filter_In. split; [assumption|]. simpl. rewrite str_eqb_refl.
    apply mem_not_in in Hout. now rewrite Hout. }
  destruct (filter _ edges); [contradiction | discriminate].
Qed.

Lemma pending_pos_source (edges : list (str * str)) (order : list str) (m : str) :
  pending edges order m <> 0 -> exists s, In (s, m) edges /\ ~ In s order.
Proof.
  unfold pending. intros H.
  destruct (filter (fun e => str_eqb (snd e) m && negb (mem (fst e) order)) edges)
    as [|[s d] rest] eqn:E; [contradiction|].
  assert (Hin : In (s, d) (filter (fun e => str_eqb (snd e) m && negb (mem (fst e) order))
                                  edges)) by (rewrite E; now left).
  apply filter_In in Hin as [Hin Hp]. simpl in Hp.
  apply andb_true_iff in Hp as [Hd Hs]. apply str_eqb_eq in Hd. subst d.
  exists s. split; [assumption|]. apply mem_not_in. now destruct (mem s order).
Qed.

(** Popping [n] releases one pending edge per occurrence among its
    successors. *)
Lemma pending_snoc (edges : list (str * str)) (order : list str) (n m : str) :
  ~ In n order ->
  pending edges order m
  = pending edges (order ++ [n]) m + occurrences (outs edges n) m.
Proof.
  intros Hn. apply mem_not_in in Hn. unfold pending, occurrences.
  induction edges as [|[s d] rest IH]; [reflexivity|].
  cbn [filter outs fst snd]. rewrite mem_snoc.
  destruct (str_eqb s n) eqn:Es.
  - apply str_eqb_eq in Es. subst s. rewrite Hn. cbn [negb orb filter].
    rewrite andb_false_r, andb_true_r, (str_eqb_sym m d).
    destruct (str_eqb d m); cbn [length]; rewrite IH; lia.
  - rewrite orb_false_r.
    destruct (str_eqb d m && negb (mem s order)); cbn [length]; rewrite IH; lia.
Qed.

Lemma occurrences_cons (x m : str) (l : list str) :
  occurrences (x :: l) m = if str_eqb m x then S (occurrences l m) else occurrences l m.
Proof. unfold occurrences. simpl. now destruct (str_eqb m x). Qed.

(** The inner loop over the successors that remain. *)
Lemma release_spec (nodes : list str) (edges : list (str * str)) (order : list str) :
  forall (succs : list str) (indeg : Dict.t Z) (q : list str),
    NoDup (order ++ q) -> incl (order ++ q) nodes ->
    (forall m, In m succs -> In m nodes) ->
    (forall m, In m nodes ->
               Dict.get m indeg
               = Some (Z.of_nat (pending edges order m + occurrences succs m))) ->
    (forall m, In m nodes ->
               (In m (order ++ q) <-> pending edges order m + occurrences succs m = 0)) ->
    exists indeg' q',
      release succs indeg q = Some (indeg', q')
      /\ NoDup (order ++ q') /\ incl (order ++ q') nodes
      /\ (forall m, In m nodes ->
                    Dict.get m indeg' = Some (Z.of_nat (pending edges order m)))
      /\ (forall m, In m nodes -> (In m (order ++ q') <-> pending edges order m = 0)).
Proof.
  induction succs as [|x rest IH]; intros indeg q Hnd Hincl Hsub Hdeg Hzero.
  - exists indeg, q. split; [reflexivity|].
    split; [assumption|]. split; [assumption|]. split.
    + intros m Hm. rewrite (Hdeg m Hm). unfold occurrences. simpl.
      now rewrite Nat.add_0_r.
    + intros m Hm. rewrite (Hzero m Hm). unfold occurrences. simpl. split; lia.
  - assert (Hx : In x nodes) by (apply Hsub; now left).
    cbn [release]. rewrite (Hdeg x Hx).
    assert (Hnotin : ~ In x (order ++ q)).
    { intros H. apply (Hzero x Hx) in H. rewrite occurrences_cons, str_eqb_refl in H. lia. }
    set (d' := (Z.of_nat (pending edges order x + occurrences (x :: rest) x) - 1)%Z).
    assert (Ed : d' = Z.of_nat (pending edges order x + occurrences rest x)).
    { unfold d'. rewrite occurrences_cons, str_eqb_refl. lia. }
    apply IH.
    + destruct (Z.eqb_spec d' 0); [|assumption].
      rewrite app_assoc. apply NoDup_app; [assumption | repeat constructor; simpl; tauto|].
      intros y Hy [<-|[]]. contradiction.
    + destruct (Z.eqb_spec d' 0); [|assumption].
      rewrite app_assoc. apply incl_app; [assumption|]. intros y [<-|[]]. assumption.
    + intros m Hm. apply Hsub. now right.
    + intros m Hm. destruct (str_eq_dec x m) as [<-|Hne].
      * now rewrite DictFacts.get_set_same, Ed.
      * rewrite DictFacts.get_set_other by assumption. rewrite (Hdeg m Hm).
        rewrite occurrences_cons.
        assert (str_eqb m x = false) as -> by (apply str_eqb_neq; congruence).
        reflexivity.
    + intros m Hm. destruct (str_eq_dec x m) as [<-|Hne].
      * destruct (Z.eqb_spec d' 0) as [Hz|Hz].
        -- split; [intros _; lia|]. intros _. rewrite app_assoc. apply in_or_app.
           right. now left.
        -- split; [intros H; contradiction | intros H; lia].
      * assert (Hocc : occurrences (x :: rest) m = occurrences rest m).
        { rewrite occurrences_cons.
          assert (str_eqb m x = false) as -> by (apply str_eqb_neq; congruence).
          reflexivity. }
        rewrite <- Hocc, <- (Hzero m Hm).
        destruct (Z.eqb_spec d' 0); [|tauto].
        rewrite (app_assoc order q [x]), in_app_iff. simpl.
        split; [intros [H|[H|[]]]; [assumption | congruence] | auto].
Qed.

(** ** Order of occurrence *)

Lemma precedes_app_l (a b : str) (l l' : list str) :
  precedes a b l -> precedes a b (l ++ l').
Proof.
  intros (i & j & Hij & Hi & Hj). exists i, j. split; [assumption|].
  split; rewrite nth_error_app1; auto; apply nth_error_Some; congruence.
Qed.

Lemma precedes_snoc (s n : str) (l : list str) : In s l -> precedes s n (l ++ [n]).
Proof.
  intros H. apply In_nth_error in H as [i Hi].
  assert (Hlt : i < length l) by (apply nth_error_Some; congruence).
  exists i, (length l). split; [assumption|]. split.
  - now rewrite nth_error_app1.
  - rewrite nth_error_app2 by lia. now rewrite Nat.sub_diag.
Qed.

Lemma precedes_trans (a b c : str) (l : list str) :
  NoDup l -> precedes a b l -> precedes b c l -> precedes a c l.
Proof.
  intros Hnd (i & j & Hij & Hi & Hj) (j' & k & Hjk & Hj' & Hk).
  assert (j = j').
  { apply (proj1 (NoDup_nth_error l) Hnd); [|congruence].
    apply nth_error_Some. congruence. }
  subst j'. exists i, k. repeat split; auto. lia.
Qed.

Lemma precedes_irrefl (a : str) (l : list str) : NoDup l -> ~ precedes a a l.
Proof.
  intros Hnd (i & j & Hij & Hi & Hj).
  assert (i = j); [|lia].
  apply (proj1 (NoDup_nth_error l) Hnd); [|congruence].
  apply nth_error_Some. congruence.
Qed.

Lemma precedes_in (a b : str) (l : list str) : precedes a b l -> In a l /\ In b l.
Proof. intros (i & j & _ & Hi & Hj). split; eapply nth_error_In; eauto. Qed.

(** ** One iteration and the whole loop *)

Section Loop.
Variable nodes : list str.
Variable edges : list (str * str).
Hypothesis targets_in_nodes : forall s d, In (s, d) edges -> In d nodes.

Lemma loop_step (indeg : Dict.t Z) (n : str) (q order : list str) :
  loop_invariant nodes edges indeg (n :: q) order ->
  exists indeg' q',
    release (outs edges n) indeg q = Some (indeg', q')
    /\ loop_invariant nodes edges indeg' q' (order ++ [n]).
Proof.
  intros [Hnd Hincl Hdeg Hzero Hord].
  assert (Hn_nodes : In n nodes) by (apply Hincl, in_or_app; right; now left).
  assert (Hn_order : ~ In n order).
  { apply NoDup_remove_2 in Hnd. intros H. apply Hnd, in_or_app. now left. }
  assert (Hn_zero : pending edges order n = 0).
  { apply (Hzero n Hn_nodes), in_or_app. right. now left. }
  destruct (@release_spec nodes edges (order ++ [n]) (outs edges n) indeg q)
    as (indeg' & q' & Hrel & Hnd' & Hincl' & Hdeg' & Hzero').
  - now rewrite <- app_assoc.
  - now rewrite <- app_assoc.
  - intros m Hm. apply in_outs in Hm. eauto.
  - intros m Hm. rewrite (Hdeg m Hm). now rewrite (@pending_snoc edges order n m Hn_order).
  - intros m Hm. rewrite <- (@pending_snoc edges order n m Hn_order), <- (Hzero m Hm).
    now rewrite <- app_assoc.
  - exists indeg', q'. split; [assumption|]. constructor; auto.
    intros s d He Hd. apply in_app_or in Hd as [Hd|[<-|[]]].
    + apply precedes_app_l. now apply Hord.
    + apply precedes_snoc. now apply (@pending_zero_sources edges order n Hn_zero).
Qed.

Lemma drain_spec (out_edges : Dict.t (list str)) :
  (forall n, Dict.get_default n [] out_edges = outs edges n) ->
  forall fuel indeg q order,
    loop_invariant nodes edges indeg q order ->
    length nodes <= fuel + length order ->
    exists indeg' final,
      drain fuel out_edges indeg q order = Returns final
      /\ loop_invariant nodes edges indeg' [] final.
Proof.
  intros Hout. induction fuel as [|fuel IH]; intros indeg q order Hinv Hfuel.
  - destruct q as [|n q].
    + exists indeg, order. split; [reflexivity | assumption].
    + exfalso. destruct Hinv as [Hnd Hincl _ _ _].
      pose proof (NoDup_incl_length Hnd Hincl) as Hlen.
      rewrite length_app in Hlen. simpl in Hlen. lia.
  - destruct q as [|n q].
    + exists indeg, order. split; [reflexivity | assumption].
    + destruct (loop_step Hinv) as (indeg' & q' & Hrel & Hinv').
      cbn [drain]. rewrite Hout, Hrel. apply IH; [assumption|].
      rewrite length_app. simpl. lia.
Qed.

Hypothesis nodes_distinct : NoDup nodes.

Lemma initial_invariant :
  exists out_edges indeg q,
    count_edges edges (Dict.empty _) (indeg_init nodes) = Some (out_edges, indeg)
    /\ zero_indegree nodes indeg = Some q
    /\ (forall n, Dict.get_default n [] out_edges = outs edges n)
    /\ loop_invariant nodes edges indeg q [].
Proof.
  destruct (@count_edges_spec edges (Dict.empty _) (indeg_init nodes))
    as (oe & indeg & Hc & Ho & Hi).
  { intros s d He. rewrite indeg_init_get.
    assert (mem d nodes = true) as -> by (apply mem_in; eauto). discriminate. }
  assert (Hdeg : forall m, In m nodes ->
                           Dict.get m indeg = Some (Z.of_nat (pending edges [] m))).
  { intros m Hm. rewrite Hi, indeg_init_get, pending_nil.
    assert (mem m nodes = true) as -> by now apply mem_in. reflexivity. }
  destruct (@zero_indegree_spec indeg nodes) as (q & Hq & Hin & Hnd).
  { intros n Hn. rewrite (Hdeg n Hn). discriminate. }
  exists oe, indeg, q. split; [exact Hc|]. split; [exact Hq|]. split.
  - intros n. now rewrite Ho.
  - constructor; simpl; auto.
    + intros n Hn. now apply Hin in Hn.
    + intros m Hm. rewrite Hin, (Hdeg m Hm). split.
      * intros [_ [= H]]. lia.
      * intros H. split; [assumption|]. now rewrite H.
    + intros s d _ [].
Qed.

(** What [topological_sort] returns when it does not raise: the popped
    sequence if it has all the nodes, the nodes otherwise. *)
Lemma topological_sort_spec :
  exists indeg final,
    loop_invariant nodes edges indeg [] final
    /\ topological_sort nodes edges
       = Returns (if (length final =? length nodes)%nat then final else nodes).
Proof.
  destruct initial_invariant as (oe & indeg & q & Hc & Hq & Ho & Hinv).
  destruct (@drain_spec oe Ho (length nodes) indeg q [] Hinv) as (indeg' & final & Hd & Hf).
  { simpl. lia. }
  exists indeg', final. split; [assumption|].
  unfold topological_sort. now rewrite Hc, Hq, Hd.
Qed.

End Loop.

(* ------------------------------------------------------------------ *)
(** ** Cycles *)
(* ------------------------------------------------------------------ *)

Lemma chain_tail (E : str -> str -> Prop) (l1 l2 : list str) :
  chain E (l1 ++ l2) -> chain E l2.
Proof.
  induction l1 as [|a l1 IH]; [auto|]. intros H. apply IH.
  destruct l1 as [|b l1]; simpl in *.
  - now destruct l2 as [|c l2]; [|destruct H].
  - now destruct H.
Qed.

Lemma chain_path (E : str -> str -> Prop) (l2 l3 : list str) :
  forall a b, chain E (a :: l2 ++ b :: l3) -> clos_trans str E a b.
Proof.
  induction l2 as [|c l2 IH]; intros a b H.
  - destruct H as [H _]. now apply t_step.
  - destruct H as [H1 H2]. eapply t_trans; [apply t_step; exact H1 | now apply IH].
Qed.

Lemma repeated_element (l : list str) :
  ~ NoDup l -> exists z l1 l2 l3, l = l1 ++ z :: l2 ++ z :: l3.
Proof.
  induction l as [|a l IH]; intros H.
  - exfalso. apply H. constructor.
  - destruct (in_dec str_eq_dec a l) as [Hin|Hout].
    + apply in_split in Hin as (l2 & l3 & ->). now exists a, [], l2, l3.
    + destruct IH as (z & l1 & l2 & l3 & ->).
      * intros Hnd. apply H. now constructor.
      * now exists z, (a :: l1), l2, l3.
Qed.

Lemma chain_cycle (E : str -> str -> Prop) (l : list str) :
  chain E l -> ~ NoDup l -> exists z, clos_trans str E z z.
Proof.
  intros Hc Hn. apply repeated_element in Hn as (z & l1 & l2 & l3 & ->).
  exists z. apply chain_tail in Hc. now apply chain_path in Hc.
Qed.

(** In a set where every element has a predecessor in the set, predecessors
    can be followed for as long as one likes. *)
Lemma backward_chain (P : str -> Prop) (E : str -> str -> Prop) :
  (forall x, P x -> exists y, P y /\ E y x) ->
  forall k x, P x -> exists l, length l = S k /\ chain E l /\ Forall P l.
Proof.
  intros Hpred k. induction k as [|k IH]; intros x Hx.
  - exists [x]. repeat split; simpl; auto.
  - destruct (IH x Hx) as (l & Hlen & Hc & HP).
    destruct l as [|h t]; [discriminate|].
    inversion HP as [|? ? Hh _]; subst.
    destruct (Hpred h Hh) as (y & Hy & Hyh).
    exists (y :: h :: t). repeat split; simpl in *; auto.
Qed.

(** A non-empty part of a finite set in which every element has a
    predecessor contains a cycle. *)
Lemma predecessors_cycle (P : str -> Prop) (E : str -> str -> Prop) (universe : list str) :
  (forall x, P x -> In x universe) ->
  (forall x, P x -> exists y, P y /\ E y x) ->
  forall x, P x -> exists z, clos_trans str E z z.
Proof.
  intros Hfin Hpred x Hx.
  destruct (@backward_chain P E Hpred (length universe) x Hx) as (l & Hlen & Hc & HP).
  apply (@chain_cycle E l Hc). intros Hnd.
  assert (Hincl : incl l universe).
  { intros y Hy. apply Hfin. rewrite Forall_forall in HP. now apply HP. }
  pose proof (NoDup_incl_length Hnd Hincl). lia.
Qed.

Lemma forward_no_cycle (E : str -> str -> Prop) (l : list str) :
  NoDup l -> (forall s d, E s d -> precedes s d l) ->
  forall x, ~ clos_trans str E x x.
Proof.
  intros Hnd Hfwd x Hx.
  assert (H : forall a b, clos_trans str E a b -> precedes a b l).
  { intros a b Hab. induction Hab as [a b Hab|a b c _ IH1 _ IH2]; [auto|].
    eapply precedes_trans; eauto. }
  apply (precedes_irrefl Hnd (H x x Hx)).
Qed.

Lemma missing_element (l l' : list str) :
  incl l l' \/ exists x, In x l /\ ~ In x l'.
Proof.
  induction l as [|a l IH].
  - left. intros x [].
  - destruct (in_dec str_eq_dec a l') as [Ha|Ha]; [|right; exists a; simpl; auto].
    destruct IH as [IH|(x & Hx & Hn)].
    + left. intros x [<-|Hx]; auto.
    + right. exists x. simpl. auto.
Qed.

(* ------------------------------------------------------------------ *)
(** ** The ordering of a model *)
(* ------------------------------------------------------------------ *)

(** An edge to an undeclared name makes the first loop raise. *)
Lemma ordered_key_error (graph : Graph) (s d : str) :
  In (s, d) (connections graph) -> ~ In d (Dict.keys (components graph)) ->
  ordered graph = KeyError.
Proof.
  intros He Hd. unfold ordered, topological_sort.
  rewrite (@count_edges_key_error (connections graph) (Dict.empty _)
             (indeg_init (Dict.keys (components graph))) s d He); [reflexivity|].
  rewrite indeg_init_get. apply mem_not_in in Hd. now rewrite Hd.
Qed.

Lemma ordered_spec (graph : Graph) :
  well_formed graph -> targets_declared graph ->
  exists indeg final,
    loop_invariant (Dict.keys (components graph)) (connections graph) indeg [] final
    /\ ordered graph
       = Returns (if (length final =? length (Dict.keys (components graph)))%nat
                  then final else Dict.keys (components graph)).
Proof. intros Hwf Ht. now apply topological_sort_spec. Qed.

Lemma complete_order (nodes final : list str) :
  NoDup final -> incl final nodes -> length final = length nodes -> incl nodes final.
Proof.
  intros Hnd Hincl Hlen. apply NoDup_length_incl; [assumption | lia | assumption].
Qed.

(** With every edge target declared, the ordering returns a sequence with
    exactly the declared components. *)
Lemma ordered_returns (graph : Graph) :
  well_formed graph -> targets_declared graph ->
  exists l, ordered graph = Returns l
            /\ length l = length (Dict.keys (components graph))
            /\ (forall x, In x l <-> In x (Dict.keys (components graph))).
Proof.
  intros Hwf Ht. destruct (ordered_spec Hwf Ht) as (indeg & final & Hinv & ->).
  destruct Hinv as [Hnd Hincl _ _ _]. rewrite app_nil_r in Hnd, Hincl.
  destruct (Nat.eqb_spec (length final) (length (Dict.keys (components graph))))
    as [E|E].
  - exists final. repeat split; auto. now apply complete_order.
  - eexists. repeat split; auto.
Qed.

(** With every edge target declared and a cycle among the declared
    components, the ordering is the declaration order. *)
Lemma ordered_cyclic (graph : Graph) :
  well_formed graph -> targets_declared graph -> cyclic graph ->
  ordered graph = Returns (Dict.keys (components graph)).
Proof.
  intros Hwf Ht [x Hx]. destruct (ordered_spec Hwf Ht) as (indeg & final & Hinv & ->).
  destruct Hinv as [Hnd Hincl _ _ Hord]. rewrite app_nil_r in Hnd, Hincl.
  destruct (Nat.eqb_spec (length final) (length (Dict.keys (components graph))))
    as [E|E]; [|reflexivity].
  exfalso. apply (@forward_no_cycle (declared_edge graph) final Hnd) with (x := x);
    [|assumption].
  intros s d (He & _ & Hd). apply Hord; [assumption|].
  now apply (complete_order Hnd Hincl E).
Qed.

(** With every edge endpoint declared and no cycle, the ordering is a
    topological order of the declared components. *)
Lemma ordered_acyclic (graph : Graph) :
  well_formed graph -> targets_declared graph -> sources_declared graph ->
  acyclic graph ->
  exists l, ordered graph = Returns l
            /\ length l = length (Dict.keys (components graph))
            /\ topological graph l.
Proof.
  intros Hwf Ht Hs Hac. destruct (ordered_spec Hwf Ht) as (indeg & final & Hinv & ->).
  destruct Hinv as [Hnd Hincl _ Hzero Hord]. rewrite app_nil_r in Hnd, Hincl.
  set (nodes := Dict.keys (components graph)) in *.
  assert (Hall : incl nodes final).
  { destruct (missing_element nodes final) as [H|(x & Hx & Hn)]; [assumption|].
    exfalso.
    destruct (@predecessors_cycle (fun y => In y nodes /\ ~ In y final)
                                  (declared_edge graph) nodes) with (x := x)
      as [z Hz]; [tauto | | tauto | now apply (Hac z)].
    intros y [Hy Hny].
    destruct (@pending_pos_source (connections graph) final y) as (s & He & Hsn).
    { intros H0. apply Hny. apply (Hzero y Hy) in H0. now rewrite app_nil_r in H0. }
    exists s. repeat split; eauto. }
  assert (Hlen : length final = length nodes).
  { apply Nat.le_antisymm; apply NoDup_incl_length; assumption. }
  rewrite Hlen, Nat.eqb_refl. exists final. repeat split; auto.
  intros s d (He & _ & Hd). apply Hord; auto.
Qed.

Lemma undeclared_target_or_not (nodes : list str) (edges : list (str * str)) :
  (forall s d, In (s, d) edges -> In d nodes)
  \/ (exists s d, In (s, d) edges /\ ~ In d nodes).
Proof.
  induction edges as [|[s d] rest IH].
  - left. intros s d [].
  - destruct (in_dec str_eq_dec d nodes) as [Hd|Hd];
      [|right; exists s, d; simpl; auto].
    destruct IH as [IH|(s' & d' & Hin & Hn)].
    + left. intros s' d' [[= <- <-]|Hin]; eauto.
    + right. exists s', d'. simpl. auto.
Qed.

(** The ordering of a model with distinct component names either raises
    [KeyError], when some edge target is undeclared, or returns a sequence
    as long as the component map; the loop bound of the model is never
    reached. *)
Lemma ordered_total (graph : Graph) :
  well_formed graph ->
  (ordered graph = KeyError
   /\ exists s d, In (s, d) (connections graph)
                  /\ ~ In d (Dict.keys (components graph)))
  \/ (exists l, ordered graph = Returns l
                /\ length l = length (Dict.keys (components graph))
                /\ targets_declared graph).
Proof.
  intros Hwf.
  destruct (undeclared_target_or_not (Dict.keys (components graph)) (connections graph))
    as [Ht|(s & d & He & Hd)].
  - right. destruct (ordered_returns Hwf Ht) as (l & Hl & Hlen & _). eauto.
  - left. split; [now apply (ordered_key_error graph s d) | eauto].
Qed.

(** The extractor only builds models with distinct component names. *)
Lemma parse_mp_well_formed (lines : list str) (graph : Graph) :
  parse_mp lines = Some graph -> well_formed graph.
Proof.
  unfold parse_mp. destruct (parse_lines initial_state lines) as [st|] eqn:E;
    [|discriminate].
  intros [= <-]. destruct (parse_lines_keys _ _ E) as [Hnd _].
  apply Hnd. constructor.
Qed.

(* ------------------------------------------------------------------ *)
(** ** Statement texts are recognised *)
(* ------------------------------------------------------------------ *)

Lemma plainb_sound (s : str) : plainb s = true -> plain s.
Proof.
  intros H. split.
  - intros ->. discriminate H.
  - assert (Hf : forallb plain_charb s = true) by (destruct s; [discriminate | exact H]).
    rewrite forallb_forall in Hf. apply Forall_forall. intros c Hc.
    specialize (Hf c Hc). unfold plain_charb in Hf.
    apply andb_true_iff in Hf as [H1 H2].
    split; intros ->; discriminate.
Qed.

Lemma bare_valueb_sound (v : str) : bare_valueb v = true -> bare_value v.
Proof.
  unfold bare_valueb. intros H.
  apply andb_true_iff in H as [H H4]. apply andb_true_iff in H as [H H3].
  apply andb_true_iff in H as [H1 H2].
  split; [now apply plainb_sound|]. split; [|split].
  - rewrite forallb_forall in H2. apply Forall_forall. intros c Hc.
    specialize (H2 c Hc). intros ->. discriminate.
  - intros c Hc. destruct v; [discriminate|]. injection Hc as ->.
    now destruct (is_space c).
  - intros c Hc. destruct (rev v); [discriminate|]. injection Hc as ->.
    now destruct (is_space c).
Qed.

Lemma quoted_end_strip (a s : str) :
  stops is_space a -> a <> [] -> strip (a ++ quoted s) = a ++ quoted s.
Proof.
  intros Ha Hne. apply strip_fixed.
  - destruct a as [|c a]; [congruence|]. apply stops_cons. exact (Ha c eq_refl).
  - unfold quoted, quote. rewrite !app_assoc. now apply stops_rev_snoc.
Qed.

Lemma graph_stmt_decl (name : str) : plain name -> graph_decl (graph_stmt name) name.
Proof.
  intros [Hne Hp]. destruct name as [|c t]; [congruence|].
  inversion Hp as [|? ? [_ Hc] Ht]; subst.
  exists [32%N], c, t, []. repeat split; auto; try discriminate.
  - unfold graph_stmt. rewrite quoted_end_strip;
      [reflexivity | apply stops_cons; reflexivity | discriminate].
Qed.

Lemma component_stmt_decl (name ctype : str) :
  plain name -> plain ctype -> component_decl (component_stmt name ctype) name ctype.
Proof.
  intros Hn Ht. unfold component_decl.
  replace (strip (component_stmt name ctype)) with (component_stmt name ctype ++ []).
  - now apply component_stmt_matches.
  - rewrite app_nil_r. unfold component_stmt. rewrite !app_assoc.
    rewrite quoted_end_strip; [reflexivity | apply stops_cons; reflexivity |].
    intros H. apply (f_equal (@length _)) in H. rewrite !length_app in H. simpl in H. lia.
Qed.

Lemma parameter_stmt_decl (vq semi : bool) (name value : str) :
  plain name -> bare_value value ->
  parameter_decl (parameter_stmt vq semi name value) name value.
Proof.
  intros Hn Hv. unfold parameter_decl. rewrite parameter_stmt_strip by assumption.
  now apply parameter_stmt_matches.
Qed.

(* ------------------------------------------------------------------ *)
(** ** Scenarios *)
(* ------------------------------------------------------------------ *)

Example parse_sample : parse_mp sample_lines = Some sample_graph.
Proof. vm_compute. reflexivity. Qed.

Example ordered_sample :
  ordered sample_graph = Returns [py "Read_Customers"; py "Filter_Active"].
Proof. vm_compute. reflexivity. Qed.

Example ordered_cycle : ordered cycle_graph = Returns [py "A"; py "B"].
Proof. vm_compute. reflexivity. Qed.

Example ghost_successors :
  exists graph, parse_mp ghost_lines = Some graph
                /\ Dict.keys (components graph) = [py "Read_Customers"; py "Filter_Active"]
                /\ outs (connections graph) (py "Ghost") = [py "Read_Customers"].
Proof. eexists. split; [vm_compute; reflexivity|]. split; vm_compute; reflexivity. Qed.

(** A bare value with a space at its end is cut by [strip]: the quoted and
    the bare spelling then give different values. *)
Example trailing_space_value :
  parse_line state_in_A (parameter_stmt true false (py "key") (py "id "))
  = Some (with_parameter (fst state_in_A) (py "A") (mkComponent (py "X") [])
                         (py "key") (py "id "))
  /\ parse_line state_in_A (parameter_stmt false false (py "key") (py "id "))
     = Some (with_parameter (fst state_in_A) (py "A") (mkComponent (py "X") [])
                            (py "key") (py "id")).
Proof. split; vm_compute; reflexivity. Qed.

(** A bare value with a space at its start loses it to the greedy [\s+]. *)
Example leading_space_value :
  parse_line state_in_A (parameter_stmt false true (py "key") (py " id"))
  = Some (with_parameter (fst state_in_A) (py "A") (mkComponent (py "X") [])
                         (py "key") (py "id")).
Proof. vm_compute. reflexivity. Qed.

(** An empty parameter name is not matched by [(.+?)]. *)
Example empty_name_not_matched :
  parse_line state_in_A (parameter_stmt true true [] (py "id")) = Some state_in_A.
Proof. vm_compute. reflexivity. Qed.

(** A parameter statement before any component declaration is ignored. *)
Example parameter_without_component :
  parse_line initial_state (parameter_stmt true true (py "key") (py "id"))
  = Some initial_state.
Proof. vm_compute. reflexivity. Qed.

(** Only the underscore is replaced before title-casing. *)
Example friendly_hyphen_kept :
  friendly_param ascii_lower ascii_title (py "max-core_size") = py "Max-Core Size".
Proof. vm_compute. reflexivity. Qed.

(** C1 (code at the failing input).  The model extracted from a component
    [A] and an edge from [A] to the undeclared [Ghost] makes the ordering
    raise [KeyError]. *)
Theorem ordered_undeclared_target_raises :
  parse_mp dangling_target_lines = Some dangling_target_graph
  /\ well_formed dangling_target_graph
  /\ ordered dangling_target_graph = KeyError.
Proof.
  split; [vm_compute; reflexivity|]. split; [|vm_compute; reflexivity].
  unfold well_formed. simpl. repeat constructor. simpl. tauto.
Qed.

Lemma not_precedes_A_B : ~ precedes (py "A") (py "B") [py "B"; py "A"].
Proof.
  intros (i & j & Hij & Hi & Hj).
  destruct j as [|j]; [lia|].
  destruct i as [|[|i]].
  - vm_compute in Hi. discriminate Hi.
  - destruct j as [|j]; [lia|]. destruct j as [|j].
    + vm_compute in Hj. discriminate Hj.
    + simpl in Hj. destruct j; discriminate Hj.
  - simpl in Hi. destruct i; discriminate Hi.
Qed.

(** C2 (code at the failing input).  [B] is declared before [A], the only
    edge between declared components goes from [A] to [B] (no cycle), and an
    undeclared name feeds [A]: the ordering falls back to the declaration
    order, in which [A] does not come before [B]. *)
Theorem ordered_undeclared_source_falls_back :
  parse_mp dangling_source_lines = Some dangling_source_graph
  /\ well_formed dangling_source_graph
  /\ acyclic dangling_source_graph
  /\ declared_edge dangling_source_graph (py "A") (py "B")
  /\ ordered dangling_source_graph = Returns [py "B"; py "A"]
  /\ ~ topological dangling_source_graph [py "B"; py "A"].
Proof.
  assert (Hedge : declared_edge dangling_source_graph (py "A") (py "B")).
  { unfold declared_edge. simpl. tauto. }
  split; [vm_compute; reflexivity|]. split; [|split; [|split; [exact Hedge|split]]].
  - unfold well_formed. simpl. repeat constructor; simpl; try tauto.
    intros [H|[]]. vm_compute in H. discriminate H.
  - unfold acyclic. intros x.
    apply (@forward_no_cycle (declared_edge dangling_source_graph) [py "A"; py "B"]).
    + repeat constructor; simpl; try tauto.
      intros [H|[]]. vm_compute in H. discriminate H.
    + intros s d (He & Hs & _). simpl in He.
      destruct He as [[= <- <-]|[[= <- <-]|[]]].
      * exists 0, 1. repeat split. lia.
      * exfalso. simpl in Hs. destruct Hs as [H|[H|[]]]; vm_compute in H; discriminate H.
  - vm_compute. reflexivity.
  - intros H. apply not_precedes_A_B. now apply H.
Qed.

(** C3 (code at the failing input).  [A] and [B] form a cycle and [A] also
    has an edge to the undeclared [Ghost]: the ordering raises [KeyError]
    instead of returning the declaration order. *)
Theorem ordered_cycle_undeclared_target_raises :
  parse_mp cycle_dangling_lines = Some cycle_dangling_graph
  /\ well_formed cycle_dangling_graph
  /\ cyclic cycle_dangling_graph
  /\ ordered cycle_dangling_graph = KeyError.
Proof.
  split; [vm_compute; reflexivity|]. split; [|split; [|vm_compute; reflexivity]].
  - unfold well_formed. simpl. repeat constructor; simpl; try tauto.
    intros [H|[]]. vm_compute in H. discriminate H.
  - exists (py "A"). apply t_trans with (y := py "B"); apply t_step;
      unfold declared_edge; simpl; tauto.
Qed.

(* ------------------------------------------------------------------ *)
(** ** Instances and counterexamples *)
(* ------------------------------------------------------------------ *)

(** C4, at a declaration, a [component] line cut short, and a parameter. *)
Lemma extract_total_skips_unmatched_witness :
  matches_none malformed_component = true
  /\ (exists graph,
         parse_mp [component_stmt (py "A") (py "X"); malformed_component;
                   parameter_stmt true true (py "key") (py "id")] = Some graph)
  /\ parse_mp [component_stmt (py "A") (py "X"); malformed_component;
               parameter_stmt true true (py "key") (py "id")]
     = parse_mp [component_stmt (py "A") (py "X");
                 parameter_stmt true true (py "key") (py "id")].
Proof.
  destruct (extract_total_skips_unmatched
              [component_stmt (py "A") (py "X"); malformed_component;
               parameter_stmt true true (py "key") (py "id")]) as [Htotal Hskip].
  split; [vm_compute; reflexivity|]. split; [exact Htotal|].
  apply (Hskip [component_stmt (py "A") (py "X")] malformed_component
               [parameter_stmt true true (py "key") (py "id")]).
  - reflexivity.
  - vm_compute. reflexivity.
Defined.

(** C5, at two declarations of [A] with a parameter after each. *)
Lemma redeclared_component_witness :
  component_decl (component_stmt (py "A") (py "X")) (py "A") (py "X")
  /\ component_decl (component_stmt (py "A") (py "Y")) (py "A") (py "Y")
  /\ exists st_end comp,
      parse_lines initial_state
        ([] ++ component_stmt (py "A") (py "X")
            :: [parameter_stmt true true (py "p") (py "1")]
            ++ component_stmt (py "A") (py "Y")
            :: [parameter_stmt false false (py "q") (py "2")]) = Some st_end
      /\ count_occ str_eq_dec (Dict.keys (components (fst st_end))) (py "A") = 1
      /\ component_of st_end (py "A") = Some comp
      /\ type comp = py "Y"
      /\ assigned_by [parameter_stmt false false (py "q") (py "2")] comp.
Proof.
  assert (H1 : component_decl (component_stmt (py "A") (py "X")) (py "A") (py "X"))
    by (vm_compute; reflexivity).
  assert (H2 : component_decl (component_stmt (py "A") (py "Y")) (py "A") (py "Y"))
    by (vm_compute; reflexivity).
  split; [exact H1|]. split; [exact H2|].
  destruct (@redeclared_component
              [] [parameter_stmt true true (py "p") (py "1")]
              [parameter_stmt false false (py "q") (py "2")]
              _ _ _ _ _ H1 H2)
    as (s2 & s3 & s4 & comp & _ & _ & _ & Hend & _ & Hcount & Hget & Hty & Hby & _).
  - intros raw Z [<-|[]] H. vm_compute in H. discriminate H.
  - exists s3, comp. auto.
Defined.



(** C7 (as stated) fails: the empty value has no double quote and no
    semicolon, yet the bare spelling without semicolon is not matched and
    assigns nothing. *)
Lemma empty_value_not_assigned :
  ~ (forall name value, no_quote_no_semicolon value -> four_spellings_assign name value).
Proof.
  intros H. specialize (H (py "key") [] (Forall_nil _) false false).
  vm_compute in H. discriminate H.
Qed.

(** C7 (amended), at the name [key] and the value [id]. *)
Lemma parameter_spellings_agree_witness :
  plain (py "key") /\ bare_value (py "id")
  /\ parse_line state_in_A (parameter_stmt false false (py "key") (py "id"))
     = Some (with_parameter (fst state_in_A) (py "A") (mkComponent (py "X") [])
                            (py "key") (py "id"))
  /\ parse_line state_in_A (parameter_stmt true true (py "key") (py "id"))
     = Some (with_parameter (fst state_in_A) (py "A") (mkComponent (py "X") [])
                            (py "key") (py "id")).
Proof.
  assert (Hn : plain (py "key")) by (apply plainb_sound; reflexivity).
  assert (Hv : bare_value (py "id")) by (apply bare_valueb_sound; reflexivity).
  split; [exact Hn|]. split; [exact Hv|].
  assert (Hcur : py "A" <> []) by discriminate.
  assert (Hget : Dict.get (py "A") (components (fst state_in_A))
                 = Some (mkComponent (py "X") [])) by reflexivity.
  split.
  - exact (parameter_spellings_agree (fst state_in_A) Hcur Hget Hn Hv false false).
  - exact (parameter_spellings_agree (fst state_in_A) Hcur Hget Hn Hv true true).
Defined.

(** C8, at the dangling edge from [Ghost]. *)
Lemma successor_lookup_filters_edges_witness :
  In (py "Read_Customers")
     (outs [(py "Read_Customers", py "Filter_Active"); (py "Ghost", py "Read_Customers")]
           (py "Ghost")).
Proof.
  destruct (successor_lookup_filters_edges
              [(py "Read_Customers", py "Filter_Active"); (py "Ghost", py "Read_Customers")]
              (py "Ghost")) as (_ & Hin & _).
  apply Hin. simpl. right. left. reflexivity.
Defined.

(** C9, at the sample input. *)
Lemma graph_name_last_declaration_witness :
  exists graph, parse_mp sample_lines = Some graph /\ graph_name graph = py "Sample".
Proof.
  destruct (graph_name_last_declaration sample_lines) as (graph & Hp & _ & Hlast).
  exists graph. split; [exact Hp|].
  apply (Hlast [] (graph_stmt (py "Sample")) (tl sample_lines) (py "Sample")).
  - reflexivity.
  - apply graph_stmt_decl, plainb_sound. reflexivity.
  - intros raw' name' Hin. revert name'. apply no_graph_decl.
    simpl in Hin. destruct Hin as [<-|[<-|[<-|[<-|[]]]]]; vm_compute; reflexivity.
Defined.

(** C10, at a [component] line cut short after component [A]. *)
Lemma unmatched_line_leaves_state_witness :
  matches_none malformed_component = true
  /\ parse_line state_in_A malformed_component = Some state_in_A
  /\ parse_lines state_in_A
       [malformed_component; parameter_stmt true true (py "key") (py "id")]
     = Some (with_parameter (fst state_in_A) (py "A") (mkComponent (py "X") [])
                            (py "key") (py "id")).
Proof.
  assert (Hm : matches_none malformed_component = true) by (vm_compute; reflexivity).
  destruct (unmatched_line_leaves_state state_in_A malformed_component Hm)
    as (Hsame & _ & Hnext).
  split; [exact Hm|]. split; [exact Hsame|].
  apply (Hnext (fst state_in_A) (py "A") (mkComponent (py "X") [])).
  - reflexivity.
  - discriminate.
  - reflexivity.
  - apply plainb_sound. reflexivity.
  - apply bare_valueb_sound. reflexivity.
Defined.
